(** * Skill Ecosystem: force-directed layout, pointer interaction, CV form capture

    A shallow embedding of [SkillEcosystem] (the canvas visualisation) and of
    [setVal] (the CV form tool).  The JavaScript code computes with IEEE-754
    doubles; the embedding is written once over an interface of the arithmetic
    the code uses ([Number]) and then read at two instances:

    - [float_number]: binary64 with the kernel's primitive floats, which is
      what a JavaScript engine computes (NaN, infinities and rounding
      included);
    - [xreal_number]: exact real arithmetic with an undefined value for
      NaN, the idealisation without rounding, in which the proportions of a
      resize are exact.

    Where a property of the layout depends on rounding, the doubles are read
    as the real numbers they stand for ([B2R]) and the operations of
    [float_number] by what correct rounding guarantees ([rounded]). *)

From Stdlib Require Import ZArith Reals Lra Lia Floats Bool.
From stdpp Require Import base option list strings gmap.

(** ** The arithmetic of the source *)

Class Number (T : Type) := {
  lit : Z -> positive -> T;      (* the numeric literal n/d, e.g. 0.85 = 85/100 *)
  nadd : T -> T -> T;
  nsub : T -> T -> T;
  nmul : T -> T -> T;
  ndiv : T -> T -> T;
  nsqrt : T -> T;                (* Math.sqrt *)
  nltb : T -> T -> bool          (* a < b *)
}.

Declare Scope num_scope.
Delimit Scope num_scope with num.
Notation "a + b" := (nadd a b) : num_scope.
Notation "a - b" := (nsub a b) : num_scope.
Notation "a * b" := (nmul a b) : num_scope.
Notation "a / b" := (ndiv a b) : num_scope.
Notation "a <? b" := (nltb a b) : num_scope.
Notation "a >? b" := (nltb b a) : num_scope.
Notation "# n" := (lit n 1) (at level 5, n at level 0, format "# n") : num_scope.

(** Doubles.  An integer below 2^53 converts exactly, and the quotient of two
    such integers is correctly rounded, so [lit n d] is the double a decimal
    literal denotes. *)
Definition Z2float (z : Z) : float :=
  match z with
  | Z0 => PrimFloat.zero
  | Zpos _ => PrimFloat.of_uint63 (Uint63.of_Z z)
  | Zneg p => PrimFloat.opp (PrimFloat.of_uint63 (Uint63.of_Z (Zpos p)))
  end.

#[export] Instance float_number : Number float := {|
  lit n d := PrimFloat.div (Z2float n) (Z2float (Zpos d));
  nadd := PrimFloat.add;
  nsub := PrimFloat.sub;
  nmul := PrimFloat.mul;
  ndiv := PrimFloat.div;
  nsqrt := PrimFloat.sqrt;
  nltb := PrimFloat.ltb
|}.

(** Exact arithmetic.  A value is a real number or [None], which stands for
    NaN: the result of 0/0, of the square root of a negative number, and of
    any operation on NaN; comparisons with NaN are false.  The program never
    divides a non-zero number by zero in exact arithmetic (its divisors are a
    distance, whose numerator vanishes with it, a sum of squares plus one,
    the literal 2, and the device pixel ratio, which [|| 1] keeps from being
    zero), so no infinity is needed. *)
Abbreviation xreal := (option R).

Definition Rltb (a b : R) : bool := if Rlt_dec a b then true else false.

Definition xlift (op : R -> R -> R) (a b : xreal) : xreal :=
  match a, b with
  | Some u, Some v => Some (op u v)
  | _, _ => None
  end.

Definition xdiv (a b : xreal) : xreal :=
  match a, b with
  | Some u, Some v => if Req_dec_T v 0 then None else Some (Rdiv u v)
  | _, _ => None
  end.

Definition xsqrt (a : xreal) : xreal :=
  match a with
  | Some u => if Rlt_dec u 0 then None else Some (R_sqrt.sqrt u)
  | None => None
  end.

Definition xltb (a b : xreal) : bool :=
  match a, b with
  | Some u, Some v => Rltb u v
  | _, _ => false
  end.

#[export] Instance xreal_number : Number xreal := {|
  lit n d := Some (Rdiv (IZR n) (IZR (Zpos d)));
  nadd := xlift Rplus;
  nsub := xlift Rminus;
  nmul := xlift Rmult;
  ndiv := xdiv;
  nsqrt := xsqrt;
  nltb := xltb
|}.

(** ** Data model *)

(** A catalog entry (lines 67-124). *)
Record skill := Skill {
  name : string;
  category : string;
  color : string;
  projects : list string;
  description : string
}.

Section Model.
Context {T : Type} `{Number T}.
Local Open Scope num_scope.

(** A node: the simulation fields, then the catalog entry spread into it
    (lines 145-153). *)
Record node := Node {
  id : nat;
  x : T;
  y : T;
  vx : T;
  vy : T;
  radius : T;
  info : skill
}.

(** Edges hold references to node objects; a reference is the node's index in
    [nodes] (its [id]), and [None] is the [undefined] a failed [find] gives. *)
Record connection := Connection {
  from : option nat;
  to : option nat
}.

(** The visualisation object: physics parameters (lines 20-24), the rendering
    state (lines 27-30), the canvas geometry [setupCanvas] stores, and the
    variables the event listeners close over ([mouseX], [mouseY], the pending
    hover timer).  [draggedNode] and [hoveredNode] are node references. *)
Record ecosystem := Ecosystem {
  friction : T;
  repulsionStrength : T;
  attractionStrength : T;
  centerAttraction : T;
  minDistance : T;
  nodes : list node;
  connections : list connection;
  draggedNode : option nat;
  hoveredNode : option nat;
  width : T;
  height : T;
  centerX : T;
  centerY : T;
  canvasWidth : T;
  canvasHeight : T;
  mouseX : T;
  mouseY : T;
  hoverTimer : bool;
  popup : option nat;
  cursor : string
}.

Definition set_nodes (st : ecosystem) (ns : list node) : ecosystem :=
  Ecosystem (friction st) (repulsionStrength st) (attractionStrength st)
    (centerAttraction st) (minDistance st) ns (connections st)
    (draggedNode st) (hoveredNode st) (width st) (height st) (centerX st)
    (centerY st) (canvasWidth st) (canvasHeight st) (mouseX st) (mouseY st)
    (hoverTimer st) (popup st) (cursor st).

Definition set_connections (st : ecosystem) (cs : list connection) : ecosystem :=
  Ecosystem (friction st) (repulsionStrength st) (attractionStrength st)
    (centerAttraction st) (minDistance st) (nodes st) cs
    (draggedNode st) (hoveredNode st) (width st) (height st) (centerX st)
    (centerY st) (canvasWidth st) (canvasHeight st) (mouseX st) (mouseY st)
    (hoverTimer st) (popup st) (cursor st).

(** The strengths are plain fields of the object and can be reassigned. *)
Definition set_strengths (st : ecosystem) (rep attr centre : T) : ecosystem :=
  Ecosystem (friction st) rep attr centre (minDistance st) (nodes st)
    (connections st) (draggedNode st) (hoveredNode st) (width st) (height st)
    (centerX st) (centerY st) (canvasWidth st) (canvasHeight st) (mouseX st)
    (mouseY st) (hoverTimer st) (popup st) (cursor st).

Definition set_mouse (st : ecosystem) (mx my : T) : ecosystem :=
  Ecosystem (friction st) (repulsionStrength st) (attractionStrength st)
    (centerAttraction st) (minDistance st) (nodes st) (connections st)
    (draggedNode st) (hoveredNode st) (width st) (height st) (centerX st)
    (centerY st) (canvasWidth st) (canvasHeight st) mx my
    (hoverTimer st) (popup st) (cursor st).

Definition set_hoverTimer (st : ecosystem) (b : bool) : ecosystem :=
  Ecosystem (friction st) (repulsionStrength st) (attractionStrength st)
    (centerAttraction st) (minDistance st) (nodes st) (connections st)
    (draggedNode st) (hoveredNode st) (width st) (height st) (centerX st)
    (centerY st) (canvasWidth st) (canvasHeight st) (mouseX st) (mouseY st)
    b (popup st) (cursor st).

Definition set_drag (st : ecosystem) (d : option nat) (c : string) : ecosystem :=
  Ecosystem (friction st) (repulsionStrength st) (attractionStrength st)
    (centerAttraction st) (minDistance st) (nodes st) (connections st)
    d (hoveredNode st) (width st) (height st) (centerX st)
    (centerY st) (canvasWidth st) (canvasHeight st) (mouseX st) (mouseY st)
    (hoverTimer st) (popup st) c.

Definition set_hover (st : ecosystem) (h p : option nat) (c : string) : ecosystem :=
  Ecosystem (friction st) (repulsionStrength st) (attractionStrength st)
    (centerAttraction st) (minDistance st) (nodes st) (connections st)
    (draggedNode st) h (width st) (height st) (centerX st)
    (centerY st) (canvasWidth st) (canvasHeight st) (mouseX st) (mouseY st)
    (hoverTimer st) p c.

(** ** setupCanvas (lines 47-63)

    [rw], [rh] are the container's [getBoundingClientRect] size and [dpr] the
    value of [window.devicePixelRatio || 1]. *)
Definition setupCanvas (st : ecosystem) (rw rh dpr : T) : ecosystem :=
  Ecosystem (friction st) (repulsionStrength st) (attractionStrength st)
    (centerAttraction st) (minDistance st) (nodes st) (connections st)
    (draggedNode st) (hoveredNode st)
    rw rh (rw / #2) (rh / #2) (rw * dpr) (rh * dpr)
    (mouseX st) (mouseY st) (hoverTimer st) (popup st) (cursor st).

(** ** initializeSkills (lines 65-162)

    The initial placement uses [Math.cos], [Math.sin] and [Math.random], which
    are outside the arithmetic modelled here: [place index cx cy] stands for
    the point [(cx + cos(angle) * radius + jitter, cy + sin(angle) * radius +
    jitter)] the source computes for the node of that index. *)
Definition mkNode (st : ecosystem) (place : nat -> T -> T -> T * T)
    (index : nat) (s : skill) : node :=
  let p := place index (centerX st) (centerY st) in
  Node index (fst p) (snd p) #0 #0 #30 s.

(** [this.nodes.find(n => n.name === from)]: the first node of that name. *)
Definition findByName (ns : list node) (nm : string) : option nat :=
  fst <$> list_find (fun n => name (info n) = nm) ns.

Definition mkConnection (ns : list node) (p : string * string) : connection :=
  Connection (findByName ns (fst p)) (findByName ns (snd p)).

Definition initializeSkills (st : ecosystem) (skills : list skill)
    (connectionMap : list (string * string))
    (place : nat -> T -> T -> T * T) : ecosystem :=
  let ns := imap (mkNode st place) skills in
  set_connections (set_nodes st ns) (map (mkConnection ns) connectionMap).

(** ** getNodeAtPosition (lines 233-246)

    [hitLoop ns px py k] is the loop with [i] running from [k - 1] down to 0;
    the result is a node reference (its index) or [None] for [null]. *)
Definition hits (px py : T) (n : node) : bool :=
  let dx := px - x n in
  let dy := py - y n in
  let distance := nsqrt (dx * dx + dy * dy) in
  distance <? radius n.

Fixpoint hitLoop (ns : list node) (px py : T) (k : nat) : option nat :=
  match k with
  | O => None
  | S i =>
      match ns !! i with
      | Some n => if hits px py n then Some i else hitLoop ns px py i
      | None => hitLoop ns px py i
      end
  end.

Definition getNodeAtPosition (st : ecosystem) (px py : T) : option nat :=
  hitLoop (nodes st) px py (length (nodes st)).

(** ** handleHover (lines 248-262); the popup records the node it shows. *)
Definition handleHover (st : ecosystem) (px py : T) : ecosystem :=
  let n := getNodeAtPosition st px py in
  if decide (n = hoveredNode st) then st
  else match n with
       | Some i => set_hover st n (Some i) "grab"
       | None => set_hover st n None "default"
       end.

(** ** Event listeners (lines 164-231)

    A pointer event carries its client coordinates and the canvas rectangle's
    left/top offsets at that time. *)
Record pointer := Pointer {
  clientX : T;
  clientY : T;
  rectLeft : T;
  rectTop : T
}.

Definition setNodePos (n : node) (px py : T) : node :=
  Node (id n) px py #0 #0 (radius n) (info n).

(** mousemove (lines 169-186): the dragged node follows the pointer;
    otherwise hover detection is re-armed on a 16 ms timer. *)
Definition onMouseMove (st : ecosystem) (e : pointer) : ecosystem :=
  let st1 := set_mouse st (clientX e - rectLeft e) (clientY e - rectTop e) in
  match draggedNode st1 with
  | Some d =>
      match nodes st1 !! d with
      | Some n => set_nodes st1 (<[d := setNodePos n (mouseX st1) (mouseY st1)]> (nodes st1))
      | None => st1
      end
  | None => set_hoverTimer st1 true
  end.

(** The timer callback reads the closure variables as they are when it fires. *)
Definition onHoverTimer (st : ecosystem) : ecosystem :=
  if hoverTimer st
  then handleHover (set_hoverTimer st false) (mouseX st) (mouseY st)
  else st.

(** mousedown (lines 189-198). *)
Definition onMouseDown (st : ecosystem) (e : pointer) : ecosystem :=
  let st1 := set_mouse st (clientX e - rectLeft e) (clientY e - rectTop e) in
  match getNodeAtPosition st1 (mouseX st1) (mouseY st1) with
  | Some d => set_drag st1 (Some d) "grabbing"
  | None => set_drag st1 None (cursor st1)
  end.

(** mouseup (lines 201-206). *)
Definition onMouseUp (st : ecosystem) : ecosystem :=
  match draggedNode st with
  | Some _ => set_drag st None "grab"
  | None => st
  end.

(** mouseleave (lines 209-214). *)
Definition onMouseLeave (st : ecosystem) : ecosystem :=
  set_hover (set_drag st None (cursor st)) None None "default".

(** resize (lines 218-230), the body the debounce timer runs.  [scaleX] and
    [scaleY] are computed and never used. *)
Definition recentre (st : ecosystem) (n : node) : node :=
  Node (id n)
       (centerX st + (x n - centerX st))
       (centerY st + (y n - centerY st))
       (vx n) (vy n) (radius n) (info n).

Definition onResize (st : ecosystem) (rw rh dpr : T) : ecosystem :=
  let st1 := setupCanvas st rw rh dpr in
  let scaleX := width st1 / (canvasWidth st1 / dpr) in
  let scaleY := height st1 / (canvasHeight st1 / dpr) in
  set_nodes st1 (map (recentre st1) (nodes st1)).

End Model.

Arguments node : clear implicits.
Arguments connection : clear implicits.
Arguments ecosystem : clear implicits.
Arguments pointer : clear implicits.

(** ** updatePhysics (lines 306-390) *)

Section Physics.
Context {T : Type} `{Number T}.
Local Open Scope num_scope.

(** One pass of the inner repulsion loop body (lines 322-332): the
    accumulators [(fx, fy)] after looking at [nodeB]. *)
Definition repel (st : ecosystem T) (nodeA nodeB : node T) (f : T * T) : T * T :=
  let dx := x nodeA - x nodeB in
  let dy := y nodeA - y nodeB in
  let distSq := dx * dx + dy * dy in
  let dist := nsqrt distSq in
  if dist <? minDistance st * #3 then
    let force := repulsionStrength st / (distSq + #1) in
    (fst f + (dx / dist) * force, snd f + (dy / dist) * force)
  else f.

(** The loop over [j] (lines 319-333); [rest] is [nodes.slice(j)]. *)
Fixpoint repulsionLoop (st : ecosystem T) (nodeA : node T) (i j : nat)
    (rest : list (node T)) (f : T * T) : T * T :=
  match rest with
  | [] => f
  | nodeB :: rest' =>
      repulsionLoop st nodeA i (S j) rest'
        (if decide (i = j) then f else repel st nodeA nodeB f)
  end.

(** The [forEach] callback over the connections (lines 336-357). *)
Definition spring (st : ecosystem T) (ns : list (node T)) (i : nat)
    (nodeA : node T) (f : T * T) (conn : connection) : T * T :=
  let '(other, sign) :=
    if decide (from conn = Some i) then (to conn, #1)
    else if decide (to conn = Some i) then (from conn, #(-1))
    else (None, #1) in
  match other ≫= (fun j => ns !! j) with
  | Some o =>
      let dx := x o - x nodeA in
      let dy := y o - y nodeA in
      let dist := nsqrt (dx * dx + dy * dy) in
      let optimalDist := #150 in
      let force := (dist - optimalDist) * attractionStrength st in
      (fst f + (dx / dist) * force * sign, snd f + (dy / dist) * force * sign)
  | None => f
  end.

(** The accumulated force on [nodeA] (lines 316-363). *)
Definition force (st : ecosystem T) (ns : list (node T)) (i : nat)
    (nodeA : node T) : T * T :=
  let f1 := repulsionLoop st nodeA i 0 ns (#0, #0) in
  let f2 := fold_left (spring st ns i nodeA) (connections st) f1 in
  let dcx := centerX st - x nodeA in
  let dcy := centerY st - y nodeA in
  (fst f2 + dcx * centerAttraction st, snd f2 + dcy * centerAttraction st).

(** Velocity and position update (lines 366-370). *)
Definition integrate (st : ecosystem T) (nodeA : node T) (f : T * T) : node T :=
  let vx' := (vx nodeA + fst f) * friction st in
  let vy' := (vy nodeA + snd f) * friction st in
  Node (id nodeA) (x nodeA + vx') (y nodeA + vy') vx' vy' (radius nodeA) (info nodeA).

(** One axis of the soft boundary (lines 374-380 and 382-388): the new
    coordinate and velocity component. *)
Definition clamp (margin dim p v : T) : T * T :=
  if p <? margin then (margin, v * (lit (-5) 10))
  else if p >? dim - margin then (dim - margin, v * (lit (-5) 10))
  else (p, v).

Definition boundary (st : ecosystem T) (n : node T) : node T :=
  let margin := radius n + #10 in
  let cx := clamp margin (width st) (x n) (vx n) in
  let cy := clamp margin (height st) (y n) (vy n) in
  Node (id n) (fst cx) (fst cy) (snd cx) (snd cy) (radius n) (info n).

(** The body of the outer loop for index [i], on the array as it is when the
    loop reaches [i] (nodes before [i] already moved). *)
Definition stepNode (st : ecosystem T) (ns : list (node T)) (i : nat) : list (node T) :=
  match ns !! i with
  | None => ns
  | Some nodeA =>
      if decide (draggedNode st = Some i) then ns
      else <[i := boundary st (integrate st nodeA (force st ns i nodeA))]> ns
  end.

Definition updatePhysics (st : ecosystem T) : ecosystem T :=
  set_nodes st (fold_left (stepNode st) (seq 0 (length (nodes st))) (nodes st)).


(** [k] animation frames, as far as the simulation state goes. *)
Fixpoint frames (k : nat) (st : ecosystem T) : ecosystem T :=
  match k with
  | O => st
  | S k' => updatePhysics (frames k' st)
  end.

End Physics.

(** The constructor's parameters (lines 20-35) on an empty scene. *)
Definition defaults {T} `{Number T} : ecosystem T :=
  {| friction := lit 85 100;
     repulsionStrength := lit 8000 1;
     attractionStrength := lit 1 1000;
     centerAttraction := lit 2 1000;
     minDistance := lit 100 1;
     nodes := [];
     connections := [];
     draggedNode := None;
     hoveredNode := None;
     width := lit 0 1; height := lit 0 1;
     centerX := lit 0 1; centerY := lit 0 1;
     canvasWidth := lit 0 1; canvasHeight := lit 0 1;
     mouseX := lit 0 1; mouseY := lit 0 1;
     hoverTimer := false;
     popup := None;
     cursor := EmptyString |}.

(** ** The catalog of the source (lines 67-137) and some small scenes *)

Definition skills : list skill :=
  [ Skill "Industrial Engineering" "core" "#00f2ff"
      ["Supply Chain Optimization"; "Process Improvement"; "Production Planning"]
      "Endüstri mühendisliği bilgisi ve sistem optimizasyonu";
    Skill "ERP Systems" "technical" "#a855f7"
      ["IFS Implementation"; "SAP Integration"; "Business Process Automation"]
      "Kurumsal kaynak planlaması sistemleri uzmanlığı";
    Skill "Python" "programming" "#3b82f6"
      ["Data Analysis Tools"; "Automation Scripts"; "Web Scrapers"]
      "Python ile veri analizi, otomasyon ve geliştirme";
    Skill "IFS Applications" "technical" "#ec4899"
      ["Module Customization"; "Workflow Design"; "Report Development"]
      "IFS ERP modül uzmanı ve özelleştirme";
    Skill "Data Analysis" "analytics" "#10b981"
      ["KPI Dashboards"; "Statistical Analysis"; "Predictive Models"]
      "Veri analizi ve görselleştirme uzmanlığı";
    Skill "JavaScript" "programming" "#f59e0b"
      ["Interactive Visualizations"; "Web Applications"; "This Portfolio!"]
      "Modern web geliştirme ve interaktif arayüzler";
    Skill "Process Optimization" "core" "#8b5cf6"
      ["Lean Manufacturing"; "Six Sigma Projects"; "Workflow Analysis"]
      "İş süreçlerini optimize etme ve verimlilik artırma";
    Skill "SQL & Databases" "technical" "#06b6d4"
      ["Query Optimization"; "Database Design"; "ETL Pipelines"]
      "Veritabanı yönetimi ve sorgu optimizasyonu" ].

Definition connectionMap : list (string * string) :=
  [ ("Industrial Engineering", "Process Optimization");
    ("Industrial Engineering", "ERP Systems");
    ("ERP Systems", "IFS Applications");
    ("Python", "Data Analysis");
    ("Python", "SQL & Databases");
    ("JavaScript", "Data Analysis");
    ("IFS Applications", "SQL & Databases");
    ("Data Analysis", "Process Optimization");
    ("ERP Systems", "SQL & Databases") ].

Definition python : skill :=
  Skill "Python" "programming" "#3b82f6"
    ["Data Analysis Tools"; "Automation Scripts"; "Web Scrapers"]
    "Python ile veri analizi, otomasyon ve geliştirme".

Section Scenes.
Context {T : Type} `{Number T}.
Local Open Scope num_scope.

(** A node of radius 30 at rest at [(px, py)]. *)
Definition nodeAt (i : nat) (px py : T) : node T :=
  Node i px py #0 #0 #30 python.

(** The default parameters on a [w] x [h] canvas with the given nodes and
    edges. *)
Definition scene (w h : T) (ns : list (node T)) (cs : list connection) : ecosystem T :=
  set_connections (set_nodes (setupCanvas defaults w h #1) ns) cs.

End Scenes.

(** * The CV form tool (ats-cv-tool/script.js) *)

Module CvTool.

(** A JavaScript string is a sequence of UTF-16 code units. *)
Definition jsstring := list N.

Definition js (s : string) : jsstring :=
  map Ascii.N_of_ascii (String.list_ascii_of_string s).

(** The code units [String.prototype.trim] strips: ECMAScript's WhiteSpace and
    LineTerminator. *)
Definition isWhiteSpace (c : N) : bool :=
  ((9 <=? c) && (c <=? 13) || (c =? 32) || (c =? 160) || (c =? 5760)
   || (8192 <=? c) && (c <=? 8202) || (c =? 8232) || (c =? 8233)
   || (c =? 8239) || (c =? 8287) || (c =? 12288) || (c =? 65279))%N.

Fixpoint trimStart (s : jsstring) : jsstring :=
  match s with
  | [] => []
  | c :: s' => if isWhiteSpace c then trimStart s' else s
  end.

Definition trim (s : jsstring) : jsstring :=
  rev (trimStart (rev (trimStart s))).

(** The fields of a DOM element the tool touches. *)
Record element := Element {
  value : jsstring;
  innerText : jsstring;
  display : string
}.

(** The document, as [getElementById] sees it. *)
Definition document := gmap string element.

(** [setVal] (lines 3-18).  Reading [.value] of, or assigning to, a missing
    element throws: the result is [None].  [defaultText] is [None] when the
    argument is omitted. *)
Definition setVal (doc : gmap string element) (inputId outputId : string)
    (defaultText : option jsstring) : option (gmap string element) :=
  inputEl ← doc !! inputId;
  let inputVal := value inputEl in
  outputEl ← doc !! outputId;
  if decide (trim inputVal <> [])
  then Some (<[outputId := Element (value outputEl) inputVal "block"]> doc)
  else Some (<[outputId := Element (value outputEl) (default [] defaultText)
                                   (display outputEl)]> doc).

(** [updateCV] (lines 20-46) calls [setVal] on a fixed table of fields. *)
Definition cvFields : list (string * string * jsstring) :=
  [ ("inName", "outName", js "AD SOYAD");
    ("inTitle", "outTitle", 220%N :: js "nvan");
    ("inEmail", "outEmail", js "email@ornek.com");
    ("inPhone", "outPhone", js "+90 555 555 55 55");
    ("inLink", "outLink", js "linkedin.com/in/profil");
    ("inSummary", "outSummary", js "K" ++ 305%N :: js "sa kariyer " ++ 246%N :: js "zeti...");
    ("inExp1Title", "outExp1Title", js "Pozisyon Ad" ++ [305%N]);
    ("inExp1Comp", "outExp1Comp", 350%N :: js "irket Ad" ++ [305%N]);
    ("inExp1Date", "outExp1Date", js "Tarih");
    ("inExp1Desc", "outExp1Desc", 304%N :: 351%N :: js " tan" ++ 305%N :: js "m" ++ 305%N :: js "...");
    ("inExp2Title", "outExp2Title", js "Pozisyon Ad" ++ [305%N]);
    ("inExp2Comp", "outExp2Comp", 350%N :: js "irket Ad" ++ [305%N]);
    ("inExp2Date", "outExp2Date", js "Tarih");
    ("inExp2Desc", "outExp2Desc", 304%N :: 351%N :: js " tan" ++ 305%N :: js "m" ++ 305%N :: js "...");
    ("inEdu1School", "outEdu1School", 220%N :: js "niversite Ad" ++ [305%N]);
    ("inEdu1Dept", "outEdu1Dept", js "B" ++ 246%N :: js "l" ++ 252%N :: js "m");
    ("inEdu1Date", "outEdu1Date", js "Y" ++ 305%N :: js "l");
    ("inSkills", "outSkills", js "Yetenekler...") ].

Fixpoint setVals (fields : list (string * string * jsstring))
    (doc : gmap string element) : option (gmap string element) :=
  match fields with
  | [] => Some doc
  | (i, o, d) :: rest => doc' ← setVal doc i o (Some d); setVals rest doc'
  end.

Definition updateCV (doc : gmap string element) : option (gmap string element) :=
  setVals cvFields doc.

(** What the output field must show for a given input value. *)
Definition shown (inputVal dflt : jsstring) : jsstring :=
  if forallb isWhiteSpace inputVal then dflt else inputVal.

(** The output field of a table row already shows what [setVal] would
    write. *)
Definition upToDate (doc : gmap string element) (f : string * string * jsstring) : Prop :=
  exists inEl outEl,
    doc !! fst (fst f) = Some inEl /\ doc !! snd (fst f) = Some outEl /\
    innerText outEl = shown (value inEl) (snd f) /\
    (trim (value inEl) <> [] -> display outEl = "block").

(** A document with a filled name field and a blank title field. *)
Definition sampleDoc : gmap string element :=
  <["inName" := Element (js "Ada Lovelace") [] "none"]>
  (<["outName" := Element [] (js "AD SOYAD") "none"]>
  (<["inTitle" := Element (js "   ") [] "none"]>
  (<["outTitle" := Element [] (js "old title") "block"]> ∅))).

(** A page with every field of the table, each input holding "x". *)
Definition fullDoc : gmap string element :=
  foldr (fun f m => <[fst (fst f) := Element (js "x") [] "none"]>
                    (<[snd (fst f) := Element [] [] "none"]> m)) ∅ cvFields.

End CvTool.

(** * Readings of the specification

    Definitions that state what the claims talk about, next to the code they
    are compared with. *)

Section Readings.
Context {T : Type} `{Number T}.
Local Open Scope num_scope.

(** What a resolved endpoint is, in terms of the catalog: the first entry of
    that name, or nothing when no entry has it. *)
Definition resolves (skills : list skill) (nm : string) (r : option nat) : Prop :=
  match r with
  | Some i =>
      exists s, skills !! i = Some s /\ name s = nm /\
        forall j s', (j < i)%nat -> skills !! j = Some s' -> name s' <> nm
  | None => forall s, s ∈ skills -> name s <> nm
  end.

(** The specification's reading of the repulsion rule: [b] is in range of [a]
    when their Euclidean distance is below 3 x minDistance, and then pushes
    [a] with a force of magnitude repulsionStrength / (distance^2 + 1)
    directed along the unit vector from [b] to [a].  The squared distance is
    the sum of the squared coordinate differences, the distance its square
    root, the unit vector the displacement divided by the distance, and a
    force of magnitude [m] along [u] is [u] scaled by [m].  The unit vector
    exists for nodes that are [apart]: at distance 0 the quotient is 0/0. *)
Definition squaredDistance (a b : node T) : T :=
  (x a - x b) * (x a - x b) + (y a - y b) * (y a - y b).

Definition distance (a b : node T) : T := nsqrt (squaredDistance a b).







Definition accumulate (f t : T * T) : T * T := (fst f + fst t, snd f + snd t).

(** The spring term of an edge, at each of its ends: the same expression
    [(d / dist) * ((dist - 150) * attractionStrength)] on the displacement [d]
    to the other end, taken as it is at the [from] end and negated at the
    [to] end. *)
Definition springTerm (st : ecosystem T) (a o : node T) (sign : T) : T * T :=
  let dist := nsqrt ((x o - x a) * (x o - x a) + (y o - y a) * (y o - y a)) in
  let strength := (dist - #150) * attractionStrength st in
  (((x o - x a) / dist) * strength * sign, ((y o - y a) / dist) * strength * sign).

(** The distance of a node to the canvas centre. *)
Definition centreDistance (st : ecosystem T) (n : node T) : T :=
  nsqrt ((x n - centerX st) * (x n - centerX st)
         + (y n - centerY st) * (y n - centerY st)).

End Readings.

(** ** On doubles *)

Section DoubleScenes.
Local Open Scope num_scope.

(** [lo <= p <= hi] on doubles (false as soon as one of them is NaN). *)
Definition within (lo hi p : float) : bool :=
  PrimFloat.leb lo p && PrimFloat.leb p hi.

(** The clamp fired on a coordinate [p]. *)
Definition clamped (margin dim p : float) : bool :=
  (p <? margin) || (p >? dim - margin).

(** Two connected nodes 400 apart, farther than the target length 150:
    node 0 (the [from] end) at (100, 300), node 1 (the [to] end) at
    (500, 300). *)
Definition springScene : ecosystem float :=
  scene #800 #600 [nodeAt 0 #100 #300; nodeAt 1 #500 #300]
        [Connection (Some 0) (Some 1)].

Definition springOn (st : ecosystem float) (i : nat) : float * float :=
  match nodes st !! i with
  | Some a => fold_left (spring st (nodes st) i a) (connections st) (#0, #0)
  | None => (#0, #0)
  end.


(** Two nodes at the same point (200, 200), no edges. *)
Definition coincidentScene : ecosystem float :=
  scene #800 #600 [nodeAt 0 #200 #200; nodeAt 1 #200 #200] [].

(** One node at (40.1, 300) on an 800 x 600 canvas. *)
Definition resizeScene : ecosystem float :=
  scene #800 #600 [nodeAt 0 (lit 401 10) #300] [].

(** One node at the centre of a 60 x 60 canvas: there is no room between the
    walls at 40 and 60 - 40 = 20. *)
Definition narrowScene : ecosystem float :=
  scene #60 #60 [nodeAt 0 #30 #30] [].

Definition afterStep (st : ecosystem float) (i : nat) : node float :=
  default (nodeAt i #0 #0) (nodes (updatePhysics st) !! i).

(** Three nodes at rest on 800 x 600, no edges, repulsion zero and the
    default centre attraction 0.002. *)
Definition gentlePull : ecosystem float :=
  set_strengths
    (scene #800 #600 [nodeAt 0 #500 #300; nodeAt 1 #120 #80; nodeAt 2 #700 #555] [])
    #0 (lit 1 1000) (lit 2 1000).


(** [gentlePull] with a centre attraction of 0.007. *)
Definition briskPull : ecosystem float :=
  set_strengths gentlePull #0 (lit 1 1000) (lit 7 1000).

(** One node at rest far outside the walls, at (1000000, 300), with the
    default centre attraction. *)
Definition farStart : ecosystem float :=
  set_strengths (scene #800 #600 [nodeAt 0 #1000000 #300] []) #0 (lit 1 1000) (lit 2 1000).

(** [narrowScene] without repulsion. *)
Definition narrowPull : ecosystem float :=
  set_strengths narrowScene #0 (lit 1 1000) (lit 2 1000).

(** [coincidentScene] without repulsion. *)
Definition coincidentPull : ecosystem float :=
  set_strengths coincidentScene #0 (lit 1 1000) (lit 2 1000).

(** No node is farther from the centre after any of the next [k] steps than
    it was before that step. *)
Fixpoint settlesFor (k : nat) (st : ecosystem float) : bool :=
  match k with
  | O => true
  | S k' =>
      let st' := updatePhysics st in
      forallb (fun p => PrimFloat.leb (centreDistance st (snd p)) (centreDistance st (fst p)))
              (zip (nodes st) (nodes st'))
      && settlesFor k' st'
  end.

Definition dragScene : ecosystem float :=
  set_drag springScene (Some 1) "grabbing".

(** [springScene] with node 0 at a NaN abscissa. *)
Definition lostScene : ecosystem float :=
  scene #800 #600 [nodeAt 0 PrimFloat.nan #300; nodeAt 1 #500 #300]
        [Connection (Some 0) (Some 1)].

(** One node and an edge whose other endpoint is missing. *)
Definition danglingScene : ecosystem float :=
  scene #800 #600 [nodeAt 0 #100 #300] [Connection (Some 0) None].

(** Two presses and a move, relative to a canvas at the window's origin. *)
Definition pressOnNode1 : pointer float := Pointer #505 #310 #0 #0.
Definition pressNowhere : pointer float := Pointer #300 #100 #0 #0.
Definition moveTo : pointer float := Pointer #350 #275 #10 #20.

(** Three frame timestamps. *)
Definition stamps : list float := [lit 33 1; lit 50 1; lit 66 1].



(** A double that is a number and not an infinity. *)
Definition finite (v : float) : bool :=
  match Prim2SF v with
  | S754_zero _ | S754_finite _ _ _ => true
  | _ => false
  end.

(** Node [i] after [k] frames. *)
Definition nodeAfter (k i : nat) (st : ecosystem float) : node float :=
  default (nodeAt i #0 #0) (nodes (frames k st) !! i).

(** A node is lost when a coordinate of its position is NaN. *)
Definition lost (n : node float) : Prop :=
  PrimFloat.is_nan (x n) = true \/ PrimFloat.is_nan (y n) = true.

End DoubleScenes.

(** ** Doubles as real numbers

    The number a double stands for, what a correctly rounded operation
    guarantees about its result, and the invariant of a node that only the
    centre pulls. *)

Definition bpow (e : Z) : R := powerRZ 2 e.
Arguments bpow : simpl never.

Section RealValues.
Local Open Scope R_scope.

(** The real number a [spec_float] stands for; infinities and NaN count as 0
    and are told apart by [SFfinite]. *)
Definition SF2R (f : spec_float) : R :=
  match f with
  | S754_finite s m e => (if s then - (IZR (Zpos m) * bpow e) else IZR (Zpos m) * bpow e)%R
  | _ => 0%R
  end.

(** A [spec_float] that is a number and not an infinity. *)
Definition SFfinite (f : spec_float) : bool :=
  match f with
  | S754_zero _ | S754_finite _ _ _ => true
  | _ => false
  end.




(** The real number a double stands for. *)
Definition B2R (v : float) : R := SF2R (Prim2SF v).








(** A node at rest inside its walls, on a canvas whose centre is inside them
    too. *)
Definition atRestF (st : ecosystem float) (n : node float) : Prop :=
  let lo := (radius n + #10)%num in
  PrimFloat.eqb (vx n) (lit 0 1) = true /\ PrimFloat.eqb (vy n) (lit 0 1) = true /\
  PrimFloat.leb (lit 0 1) (radius n) = true /\
  finite (x n) = true /\ finite (y n) = true /\
  finite (centerX st) = true /\ finite (centerY st) = true /\
  within lo (width st - lo)%num (x n) = true /\
  within lo (width st - lo)%num (centerX st) = true /\
  within lo (height st - lo)%num (y n) = true /\
  within lo (height st - lo)%num (centerY st) = true.

(** The distance of a node to the canvas centre, as a real number. *)
Definition Rdistance (st : ecosystem float) (n : node float) : R :=
  R_sqrt.sqrt ((B2R (x n) - B2R (centerX st)) * (B2R (x n) - B2R (centerX st))
               + (B2R (y n) - B2R (centerY st)) * (B2R (y n) - B2R (centerY st))).

End RealValues.

(** * The rest of the visualisation *)

(** ** Labels (lines 449-456)

    [split] and [join] are [String.prototype.split] and [Array.prototype.join]
    with a one-character separator.  A character of the string stands for one
    UTF-16 code unit (the catalog names are ASCII), so [String.length] is
    [name.length]. *)
Fixpoint split (sep : Ascii.ascii) (s : string) : list string :=
  match s with
  | EmptyString => [EmptyString]
  | String c s' =>
      if Ascii.eqb c sep then EmptyString :: split sep s'
      else match split sep s' with
           | w :: ws => String c w :: ws
           | [] => [String c EmptyString]
           end
  end.

Fixpoint join (sep : Ascii.ascii) (ws : list string) : string :=
  match ws with
  | [] => EmptyString
  | [w] => w
  | w :: ws' => String.append w (String sep (join sep ws'))
  end.

(** The separator occurs in a string. *)
Fixpoint occurs (sep : Ascii.ascii) (s : string) : bool :=
  match s with
  | EmptyString => false
  | String c s' => Ascii.eqb c sep || occurs sep s'
  end.

(** The lines of a node's label: [words[0]] and
    [words.slice(1).join(' ')] for a long name of several words, the name
    itself otherwise. *)
Definition labelLines (nm : string) : list string :=
  let words := split (Ascii.ascii_of_nat 32) nm in
  if (1 <? length words)%nat && (12 <? String.length nm)%nat
  then [hd EmptyString words; join (Ascii.ascii_of_nat 32) (tl words)]
  else [nm].

(** Hexadecimal colour notation: [#] followed by 3, 4, 6 or 8 hexadecimal
    digits, the notation of the catalog's colours and of the colours [render]
    builds from them by appending an alpha byte. *)
Definition isHexDigit (c : Ascii.ascii) : bool :=
  let n := Ascii.nat_of_ascii c in
  ((48 <=? n) && (n <=? 57) || (65 <=? n) && (n <=? 70) || (97 <=? n) && (n <=? 102))%nat.

Definition hexColor (s : string) : bool :=
  match s with
  | String c ds =>
      Ascii.eqb c (Ascii.ascii_of_nat 35)
      && forallb isHexDigit (String.list_ascii_of_string ds)
      && bool_decide (String.length ds ∈ [3; 4; 6; 8]%nat)
  | EmptyString => false
  end.

Section Rendering.
Context {T : Type} `{Number T}.
Local Open Scope num_scope.

(** What [render] asks of the 2D context, call by call: [clearRect]; per edge
    a line stroked with a gradient between two colours; per node a disc
    ([arc], [fill], [stroke]) with its shadow, and its label lines
    ([fillText]). *)
Inductive draw :=
  | ClearRect (w h : T)
  | Line (x1 y1 x2 y2 : T) (c1 c2 : string)
  | Disc (cx cy r : T) (fill stroke shadow : string) (blur : T)
  | Text (s : string) (tx ty : T).

(** The 2D context is the host's, and three of the calls [render] makes can
    throw (HTML Canvas 2D, WebIDL):

    - [createLinearGradient] takes restricted [double]s and throws a
      TypeError when an argument is NaN or infinite;
    - [addColorStop] throws a SyntaxError when its colour does not parse as a
      CSS colour;
    - [arc] returns without drawing when an argument is NaN or infinite, and
      throws an IndexSizeError when the radius is negative.

    [clearRect], [moveTo], [lineTo] and [fillText] ignore non-finite
    arguments, and assigning an unparsable colour to [fillStyle],
    [strokeStyle] or [shadowColor] is ignored.

    A number [v] is finite exactly when [v - v] is a number below 1: the
    difference is 0 for a finite [v] and NaN for NaN and the infinities.
    [cssColor] is the host's CSS colour parser. *)
Definition finiteNumber (v : T) : bool := v - v <? #1.

Variable cssColor : string -> bool.

(** The colour of an edge's gradient at the end [n] (lines 406-407). *)
Definition gradientStop (n : node T) : string := String.append (color (info n)) "40".

(** One edge (lines 401-414).  Reading [.x] of a missing endpoint throws a
    TypeError, and so do the gradient calls as above: [None]. *)
Definition renderEdge (ns : list (node T)) (conn : connection) : option (list draw) :=
  a ← from conn ≫= (fun i => ns !! i);
  b ← to conn ≫= (fun i => ns !! i);
  if finiteNumber (x a) && finiteNumber (y a) && finiteNumber (x b) && finiteNumber (y b)
     && cssColor (gradientStop a) && cssColor (gradientStop b)
  then Some [Line (x a) (y a) (x b) (y b) (gradientStop a) (gradientStop b)]
  else None.

(** The radius a node is drawn with (line 420); [i] is its index. *)
Definition drawnRadius (st : ecosystem T) (i : nat) (n : node T) : T :=
  let isHovered := bool_decide (hoveredNode st = Some i) in
  let isDragged := bool_decide (draggedNode st = Some i) in
  radius n + (if isHovered || isDragged then #5 else #0).

(** One node (lines 417-457): [None] when [arc] throws. *)
Definition renderNode (st : ecosystem T) (i : nat) (n : node T) : option (list draw) :=
  let isHovered := bool_decide (hoveredNode st = Some i) in
  let isDragged := bool_decide (draggedNode st = Some i) in
  let r := drawnRadius st i n in
  let col := color (info n) in
  let disc :=
    if isHovered || isDragged
    then Disc (x n) (y n) r (String.append col "20") col col #20
    else Disc (x n) (y n) r (String.append col "20") col (String.append col "80") #10 in
  let label :=
    match labelLines (name (info n)) with
    | [l1; l2] => [Text l1 (x n) (y n - #6); Text l2 (x n) (y n + #6)]
    | _ => [Text (name (info n)) (x n) (y n)]
    end in
  if finiteNumber (x n) && finiteNumber (y n) && finiteNumber r && (r <? #0)
  then None
  else Some (disc :: label).

Fixpoint renderEdges (ns : list (node T)) (cs : list connection) : option (list draw) :=
  match cs with
  | [] => Some []
  | c :: cs' =>
      d ← renderEdge ns c;
      ds ← renderEdges ns cs';
      Some (d ++ ds)
  end.

(** The nodes from index [i] on. *)
Fixpoint renderNodes (st : ecosystem T) (i : nat) (ns : list (node T)) : option (list draw) :=
  match ns with
  | [] => Some []
  | n :: ns' =>
      d ← renderNode st i n;
      ds ← renderNodes st (S i) ns';
      Some (d ++ ds)
  end.

(** [render] (lines 393-458): the calls of a whole frame, or [None] when it
    throws. *)
Definition render (st : ecosystem T) : option (list draw) :=
  edges ← renderEdges (nodes st) (connections st);
  discs ← renderNodes st 0 (nodes st);
  Some (ClearRect (width st) (height st) :: edges ++ discs).

(** ** The animation loop (lines 461-486)

    The object together with what the host keeps for it: the frame callbacks
    requested with [requestAnimationFrame] and not yet run or cancelled, by
    handle, and the next handle the host hands out (handles are positive, so
    a stored handle is truthy). *)
Record loop := Loop {
  eco : ecosystem T;
  animationId : option nat;
  lastFrameTime : T;
  fps : T;
  scheduled : list nat;
  nextHandle : nat
}.

Definition requestFrame (lp : loop) : loop :=
  Loop (eco lp) (Some (nextHandle lp)) (lastFrameTime lp) (fps lp)
       (nextHandle lp :: scheduled lp) (S (nextHandle lp)).

Definition cancelFrame (lp : loop) (h : nat) : loop :=
  Loop (eco lp) (animationId lp) (lastFrameTime lp) (fps lp)
       (List.filter (fun h' => negb (Nat.eqb h' h)) (scheduled lp)) (nextHandle lp).

(** [startAnimation] (lines 475-480). *)
Definition startAnimation (lp : loop) : loop :=
  match animationId lp with
  | Some h => requestFrame (cancelFrame lp h)
  | None => requestFrame lp
  end.

(** [destroy] (lines 482-486). *)
Definition destroy (lp : loop) : loop :=
  match animationId lp with
  | Some h => cancelFrame lp h
  | None => lp
  end.

(** [animate] (lines 461-473): the physics step is applied, then [render]
    runs; when it throws, the next frame is never requested. *)
Definition animate (lp : loop) (timestamp : T) : loop :=
  let deltaTime := timestamp - lastFrameTime lp in
  let st' := updatePhysics (eco lp) in
  let lp' := Loop st' (animationId lp) timestamp (#1000 / deltaTime)
                  (scheduled lp) (nextHandle lp) in
  match render st' with
  | Some _ => requestFrame lp'
  | None => lp'
  end.

(** The host runs a pending frame callback, if there is one. *)
Definition tick (lp : loop) (timestamp : T) : loop :=
  match scheduled lp with
  | [] => lp
  | h :: _ =>
      animate (Loop (eco lp) (animationId lp) (lastFrameTime lp) (fps lp)
                    (List.filter (fun h' => negb (Nat.eqb h' h)) (scheduled lp))
                    (nextHandle lp)) timestamp
  end.

(** What can happen to the loop. *)
Inductive loopEvent :=
  | Start
  | Tick (timestamp : T)
  | Destroy.

Definition loopStep (lp : loop) (ev : loopEvent) : loop :=
  match ev with
  | Start => startAnimation lp
  | Tick ts => tick lp ts
  | Destroy => destroy lp
  end.

(** The constructor (lines 31-37) followed by [init]'s [startAnimation]. *)
Definition newLoop (st : ecosystem T) : loop :=
  startAnimation (Loop st None #0 #60 [] 1).

Definition runLoop (lp : loop) (evs : list loopEvent) : loop :=
  fold_left loopStep evs lp.

(** At most one frame callback is pending, and it is the one the object
    remembers. *)
Definition tidy (lp : loop) : Prop :=
  scheduled lp = [] \/ exists h, scheduled lp = [h] /\ animationId lp = Some h.

(** An edge with a missing endpoint; edges whose endpoints, when present, are
    nodes of the array. *)
Definition dangling (c : connection) : Prop := from c = None \/ to c = None.

Definition anchored (ns : list (node T)) (cs : list connection) : Prop :=
  forall c j, c ∈ cs -> from c = Some j \/ to c = Some j -> (j < length ns)%nat.

(** What makes an edge impossible to paint: a missing endpoint, or an endpoint
    with a coordinate that is not a finite number or with a gradient colour
    that does not parse.  What makes a node impossible to paint: a negative
    drawn radius at a finite position. *)
Definition endpointOf (ns : list (node T)) (c : connection) (a : node T) : Prop :=
  exists j, (from c = Some j \/ to c = Some j) /\ ns !! j = Some a.

Definition badEnd (a : node T) : Prop :=
  finiteNumber (x a) = false \/ finiteNumber (y a) = false \/
  cssColor (gradientStop a) = false.

Definition unpaintable (ns : list (node T)) (c : connection) : Prop :=
  dangling c \/ exists a, endpointOf ns c a /\ badEnd a.

Definition negativeDisc (st : ecosystem T) (i : nat) (n : node T) : Prop :=
  finiteNumber (x n) = true /\ finiteNumber (y n) = true /\
  finiteNumber (drawnRadius st i n) = true /\ (drawnRadius st i n <? #0) = true.

(** ** The events the listeners receive *)
Inductive event :=
  | MouseMove (e : pointer T)
  | MouseDown (e : pointer T)
  | MouseUp
  | MouseLeave
  | HoverTimer
  | Resize (rw rh dpr : T)
  | Frame.

Definition handle (st : ecosystem T) (ev : event) : ecosystem T :=
  match ev with
  | MouseMove e => onMouseMove st e
  | MouseDown e => onMouseDown st e
  | MouseUp => onMouseUp st
  | MouseLeave => onMouseLeave st
  | HoverTimer => onHoverTimer st
  | Resize rw rh dpr => onResize st rw rh dpr
  | Frame => updatePhysics st
  end.

Definition run (st : ecosystem T) (evs : list event) : ecosystem T :=
  fold_left handle evs st.

(** What identifies a node, and the parameters of the simulation. *)
Definition identity (n : node T) : nat * T * skill := (id n, radius n, info n).

Definition parameters (st : ecosystem T) : T * T * T * T * T :=
  (friction st, repulsionStrength st, attractionStrength st,
   centerAttraction st, minDistance st).

(** The references of a state point into its node array, and the popup shows
    the hovered node. *)
Definition consistent (st : ecosystem T) : Prop :=
  (forall d, draggedNode st = Some d -> d < length (nodes st))%nat /\
  (forall h, hoveredNode st = Some h -> h < length (nodes st))%nat /\
  popup st = hoveredNode st.

(** An edge takes part in the force on node [i]: it touches the node and its
    other endpoint is there. *)
Definition pulls (i : nat) (conn : connection) : bool :=
  if decide (from conn = Some i) then bool_decide (is_Some (to conn))
  else if decide (to conn = Some i) then bool_decide (is_Some (from conn))
  else false.

End Rendering.

Arguments draw : clear implicits.
Arguments loop : clear implicits.
Arguments loopEvent : clear implicits.
Arguments event : clear implicits.

(** * Properties *)

(** ** Hit-testing *)

Section HitTest.
Context {T : Type} `{Number T}.

Lemma hitLoop_Some (ns : list (node T)) px py k i :
  hitLoop ns px py k = Some i ->
  i < k /\
  (exists n, ns !! i = Some n /\ hits px py n = true) /\
  (forall j n, i < j < k -> ns !! j = Some n -> hits px py n = false).
Proof.
  induction k as [|k IH]; simpl; [discriminate|].
  destruct (ns !! k) as [n|] eqn:Hk.
  - destruct (hits px py n) eqn:Hh.
    + intros [= <-]. split; [lia|]. split; [eauto|].
      intros j m Hj. lia.
    + intros Hi. destruct (IH Hi) as (Hlt & Hhit & Hrest).
      split; [lia|]. split; [exact Hhit|].
      intros j m Hj Hm. destruct (decide (j = k)) as [->|Hne].
      * congruence.
      * apply (Hrest j m); [lia|exact Hm].
  - intros Hi. destruct (IH Hi) as (Hlt & Hhit & Hrest).
    split; [lia|]. split; [exact Hhit|].
    intros j m Hj Hm. destruct (decide (j = k)) as [->|Hne].
    + congruence.
    + apply (Hrest j m); [lia|exact Hm].
Qed.

Lemma hitLoop_None (ns : list (node T)) px py k :
  hitLoop ns px py k = None ->
  forall j n, j < k -> ns !! j = Some n -> hits px py n = false.
Proof.
  induction k as [|k IH]; simpl; [intros _ j n Hj; lia|].
  destruct (ns !! k) as [m|] eqn:Hk.
  - destruct (hits px py m) eqn:Hh; [discriminate|].
    intros Hn j n Hj Hjn. destruct (decide (j = k)) as [->|Hne].
    + congruence.
    + apply (IH Hn j n); [lia|exact Hjn].
  - intros Hn j n Hj Hjn. destruct (decide (j = k)) as [->|Hne].
    + congruence.
    + apply (IH Hn j n); [lia|exact Hjn].
Qed.

(** C7. The hit-test returns the node of highest index among those the point
    lies within the radius of (the later-inserted of two overlapping nodes),
    and [None] (null) when the point is within no node's radius. *)
Theorem getNodeAtPosition_topmost (st : ecosystem T) (px py : T) :
  match getNodeAtPosition st px py with
  | Some i =>
      (exists n, nodes st !! i = Some n /\ hits px py n = true) /\
      (forall j n, i < j -> nodes st !! j = Some n -> hits px py n = false)
  | None =>
      forall j n, nodes st !! j = Some n -> hits px py n = false
  end.
Proof.
  unfold getNodeAtPosition.
  destruct (hitLoop (nodes st) px py (length (nodes st))) as [i|] eqn:Hl.
  - apply hitLoop_Some in Hl as (_ & Hhit & Hrest).
    split; [exact Hhit|].
    intros j n Hij Hj. apply (Hrest j n); [|exact Hj].
    split; [exact Hij|]. apply lookup_lt_Some in Hj. exact Hj.
  - intros j n Hj. apply (hitLoop_None _ _ _ _ Hl j n); [|exact Hj].
    apply lookup_lt_Some in Hj. exact Hj.
Qed.

End HitTest.

(** ** Dragging *)

Section Drag.
Context {T : Type} `{Number T}.
Local Open Scope num_scope.

(** C6. A drag-move event puts the dragged node at the pointer (client
    coordinates relative to the canvas) with zero velocity, whatever its
    position and velocity were. *)
Theorem drag_move_pins_node (st : ecosystem T) (e : pointer T) (d : nat) (n : node T) :
  draggedNode st = Some d ->
  nodes st !! d = Some n ->
  exists n',
    nodes (onMouseMove st e) !! d = Some n' /\
    x n' = clientX e - rectLeft e /\
    y n' = clientY e - rectTop e /\
    x n' = mouseX (onMouseMove st e) /\
    y n' = mouseY (onMouseMove st e) /\
    vx n' = #0 /\ vy n' = #0.
Proof.
  intros Hd Hn. unfold onMouseMove. simpl. rewrite Hd, Hn. simpl.
  eexists. split.
  - apply list_lookup_insert_eq. apply lookup_lt_Some in Hn. exact Hn.
  - simpl. repeat split; reflexivity.
Qed.

(** The other nodes are not touched by a drag-move. *)
Lemma drag_move_others (st : ecosystem T) (e : pointer T) (d j : nat) :
  draggedNode st = Some d -> j <> d ->
  nodes (onMouseMove st e) !! j = nodes st !! j.
Proof.
  intros Hd Hj. unfold onMouseMove. simpl. rewrite Hd.
  destruct (nodes st !! d) eqn:Hn; simpl; [|reflexivity].
  apply list_lookup_insert_ne. congruence.
Qed.

End Drag.

(** ** Repulsion and springs *)

Section Repulsion.
Context {T : Type} `{Number T}.
Local Open Scope num_scope.

Lemma spring_from_end (st : ecosystem T) (ns : list (node T)) (i j : nat)
    (a o : node T) (f : T * T) (conn : connection) :
  from conn = Some i -> to conn = Some j -> ns !! j = Some o ->
  spring st ns i a f conn = accumulate f (springTerm st a o #1).
Proof.
  intros Hf Ht Ho. unfold spring. rewrite decide_True by exact Hf.
  rewrite Ht. simpl. rewrite Ho. reflexivity.
Qed.

Lemma spring_to_end (st : ecosystem T) (ns : list (node T)) (i j : nat)
    (a o : node T) (f : T * T) (conn : connection) :
  from conn <> Some i -> to conn = Some i -> from conn = Some j -> ns !! j = Some o ->
  spring st ns i a f conn = accumulate f (springTerm st a o #(-1)).
Proof.
  intros Hf Ht Hj Ho. unfold spring. rewrite decide_False by exact Hf.
  rewrite decide_True by exact Ht. rewrite Hj. simpl. rewrite Ho. reflexivity.
Qed.

End Repulsion.

(** ** Initialisation of the edges *)

Section Init.
Context {T : Type} `{Number T}.
Local Open Scope num_scope.

Lemma mkNode_lookup (st : ecosystem T) place (skills : list skill) (i : nat) :
  imap (mkNode st place) skills !! i = mkNode st place i <$> skills !! i.
Proof. apply list_lookup_imap. Qed.

Lemma findByName_resolves (st : ecosystem T) place (skills : list skill) (nm : string) :
  resolves skills nm (findByName (imap (mkNode st place) skills) nm).
Proof.
  unfold findByName.
  destruct (list_find _ _) as [[i n]|] eqn:Hf; simpl.
  - apply list_find_Some in Hf as (Hi & Hn & Hfirst).
    rewrite mkNode_lookup in Hi.
    destruct (skills !! i) as [s|] eqn:Hs; [|discriminate].
    injection Hi as <-. exists s. split; [reflexivity|]. split; [exact Hn|].
    intros j s' Hj Hs'.
    apply (Hfirst j (mkNode st place j s')); [|exact Hj].
    rewrite mkNode_lookup, Hs'. reflexivity.
  - intros s Hs Hnm.
    apply list_elem_of_lookup in Hs as [i Hi].
    pose proof (proj1 (list_find_None _ _) Hf) as Hall.
    rewrite Forall_lookup in Hall.
    apply (Hall i (mkNode st place i s)); [|exact Hnm].
    rewrite mkNode_lookup, Hi. reflexivity.
Qed.

(** C2, as the code has it.  Initialisation validates nothing and cannot
    fail: each name pair of the connection list becomes one edge, in order,
    whose endpoints are the first catalog nodes of those names; an endpoint is
    missing exactly when no catalog entry carries the name. *)
Theorem initializeSkills_edges (st : ecosystem T) (skills : list skill)
    (connectionMap : list (string * string)) place :
  let st' := initializeSkills st skills connectionMap place in
  length (nodes st') = length skills /\
  length (connections st') = length connectionMap /\
  forall k a b, connectionMap !! k = Some (a, b) ->
    exists c, connections st' !! k = Some c /\
      resolves skills a (from c) /\ resolves skills b (to c).
Proof.
  simpl. split; [apply length_imap|]. split; [apply length_map|].
  intros k a b Hk. eexists. split.
  - rewrite list_lookup_fmap, Hk. reflexivity.
  - split; apply findByName_resolves.
Qed.

End Init.

(** ** Resizing *)

Section Resize.
Context {T : Type} `{Number T}.
Local Open Scope num_scope.

(** C4, as the code has it.  A resize recomputes the centre from the new
    container size and reassigns every node the coordinate
    [centre + (coordinate - centre)]; the scale factors are not applied, and
    identity, velocity and radius are kept.  The node is exactly unchanged
    whenever that sum gives the coordinate back. *)
Theorem resize_reassigns (st : ecosystem T) (rw rh dpr : T) (i : nat) (n : node T) :
  nodes st !! i = Some n ->
  exists n',
    nodes (onResize st rw rh dpr) !! i = Some n' /\
    x n' = rw / #2 + (x n - rw / #2) /\
    y n' = rh / #2 + (y n - rh / #2) /\
    id n' = id n /\ vx n' = vx n /\ vy n' = vy n /\
    radius n' = radius n /\ info n' = info n /\
    (rw / #2 + (x n - rw / #2) = x n ->
     rh / #2 + (y n - rh / #2) = y n -> n' = n).
Proof.
  intros Hn. eexists. split.
  - unfold onResize. simpl. rewrite list_lookup_fmap, Hn. reflexivity.
  - simpl. repeat split; try reflexivity.
    intros Hx Hy. unfold recentre. simpl. rewrite Hx, Hy.
    destruct n; reflexivity.
Qed.

End Resize.

(** In exact arithmetic the reassignment is the identity on every node, for a
    container whose size is a number. *)
Lemma resize_exact (st : ecosystem xreal) (rw rh : R) (dpr : xreal) :
  nodes (onResize st (Some rw) (Some rh) dpr) = nodes st.
Proof.
  unfold onResize. simpl.
  rewrite <- (list_fmap_id (nodes st)) at 2.
  apply list_fmap_ext. intros i n _.
  unfold recentre. simpl. destruct n as [i0 x0 y0 vx0 vy0 r0 s0]. simpl.
  destruct (Req_dec_T (2 / 1) 0) as [H2|_]; [lra|].
  f_equal.
  - destruct x0 as [u|]; simpl; [f_equal; lra|reflexivity].
  - destruct y0 as [u|]; simpl; [f_equal; lra|reflexivity].
Qed.

(** * The CV form tool *)

Module CvToolFacts.
Import CvTool.

Lemma trimStart_nil (s : jsstring) :
  trimStart s = [] <-> forallb isWhiteSpace s = true.
Proof.
  induction s as [|c s IH]; simpl; [tauto|].
  destruct (isWhiteSpace c); simpl; [exact IH|].
  split; discriminate.
Qed.

Lemma trimStart_head (s : jsstring) :
  trimStart s = [] \/ exists c t, trimStart s = c :: t /\ isWhiteSpace c = false.
Proof.
  induction s as [|c s IH]; simpl; [left; reflexivity|].
  destruct (isWhiteSpace c) eqn:Hc; [exact IH|].
  right. exists c, s. split; [reflexivity|exact Hc].
Qed.

Lemma forallb_rev (f : N -> bool) (l : list N) :
  forallb f (rev l) = forallb f l.
Proof.
  induction l as [|c l IH]; simpl; [reflexivity|].
  rewrite forallb_app, IH. simpl. rewrite andb_true_r. apply andb_comm.
Qed.

(** The trimmed value is empty exactly for an empty or whitespace-only
    value. *)
Lemma trim_nil (s : jsstring) :
  trim s = [] <-> forallb isWhiteSpace s = true.
Proof.
  unfold trim. split.
  - intros Ht. apply (f_equal (@rev N)) in Ht. rewrite rev_involutive in Ht.
    simpl in Ht. apply trimStart_nil in Ht. rewrite forallb_rev in Ht.
    apply trimStart_nil.
    destruct (trimStart_head s) as [Hn|(c & t & Hs & Hc)]; [exact Hn|].
    rewrite Hs in Ht. simpl in Ht. rewrite Hc in Ht. discriminate.
  - intros Hs. apply trimStart_nil in Hs. rewrite Hs. reflexivity.
Qed.

(** What one [setVal] leaves in the output field. *)
Lemma setVal_shows (doc : gmap string element) (inputId outputId : string)
    (dflt : jsstring) (inputEl outputEl : element) :
  doc !! inputId = Some inputEl ->
  doc !! outputId = Some outputEl ->
  exists doc' out,
    setVal doc inputId outputId (Some dflt) = Some doc' /\
    doc' !! outputId = Some out /\
    innerText out = shown (value inputEl) dflt.
Proof.
  intros Hin Hout. unfold setVal. rewrite Hin. simpl. rewrite Hout. simpl.
  unfold shown.
  destruct (decide (trim (value inputEl) <> [])) as [Hne|He].
  - eexists _, _. split; [reflexivity|]. split; [apply lookup_insert_eq|].
    simpl. destruct (forallb isWhiteSpace (value inputEl)) eqn:Hw; [|reflexivity].
    exfalso. apply Hne. apply trim_nil. exact Hw.
  - assert (Hw : forallb isWhiteSpace (value inputEl) = true).
    { apply trim_nil. destruct (trim (value inputEl)); [reflexivity|].
      exfalso. apply He. discriminate. }
    eexists _, _. split; [reflexivity|]. split; [apply lookup_insert_eq|].
    simpl. rewrite Hw. reflexivity.
Qed.

(** C10. One [setVal] leaves in the output field the input's value when its
    trimmed value is non-empty, and the default text when the input is empty
    or whitespace-only. *)
Theorem setVal_output (doc : gmap string element) (inputId outputId : string)
    (dflt : jsstring) (inputEl outputEl : element) :
  doc !! inputId = Some inputEl ->
  doc !! outputId = Some outputEl ->
  exists doc' out,
    setVal doc inputId outputId (Some dflt) = Some doc' /\
    doc' !! outputId = Some out /\
    (trim (value inputEl) <> [] -> innerText out = value inputEl) /\
    (forallb isWhiteSpace (value inputEl) = true -> innerText out = dflt) /\
    innerText out = shown (value inputEl) dflt.
Proof.
  intros Hin Hout.
  destruct (setVal_shows doc inputId outputId dflt inputEl outputEl Hin Hout)
    as (doc' & out & Hset & Hlook & Hshown).
  exists doc', out. split; [exact Hset|]. split; [exact Hlook|].
  unfold shown in *. split; [|split; [|exact Hshown]].
  - intros Hne. destruct (forallb isWhiteSpace (value inputEl)) eqn:Hw; [|exact Hshown].
    exfalso. apply Hne. apply trim_nil. exact Hw.
  - intros Hw. rewrite Hw in Hshown. exact Hshown.
Qed.

(** [setVal] touches the output element only, and never a [value]. *)
Lemma setVal_frame (doc doc' : gmap string element) (inputId outputId : string)
    (dflt : option jsstring) :
  setVal doc inputId outputId dflt = Some doc' ->
  (forall k, k <> outputId -> doc' !! k = doc !! k) /\
  (forall k, value <$> doc' !! k = value <$> doc !! k).
Proof.
  unfold setVal. destruct (doc !! inputId) as [inEl|]; [|discriminate]. simpl.
  destruct (doc !! outputId) as [outEl|] eqn:Hout; [|discriminate]. simpl.
  destruct (decide (trim (value inEl) <> [])); intros [= <-]; split.
  - intros k Hk. apply lookup_insert_ne. congruence.
  - intros k. destruct (decide (k = outputId)) as [->|Hk].
    + rewrite lookup_insert_eq, Hout. reflexivity.
    + rewrite lookup_insert_ne by congruence. reflexivity.
  - intros k Hk. apply lookup_insert_ne. congruence.
  - intros k. destruct (decide (k = outputId)) as [->|Hk].
    + rewrite lookup_insert_eq, Hout. reflexivity.
    + rewrite lookup_insert_ne by congruence. reflexivity.
Qed.

(** A whole update over a table whose output fields are pairwise distinct:
    when every field exists, the update succeeds and each output shows its
    input's value, or its default text for a blank input. *)
Lemma setVals_outputs (fields : list (string * string * jsstring)) :
  NoDup (map (fun f => snd (fst f)) fields) ->
  forall doc : gmap string element,
    (forall i o d, (i, o, d) ∈ fields -> is_Some (doc !! i) /\ is_Some (doc !! o)) ->
    exists doc',
      setVals fields doc = Some doc' /\
      (forall k, value <$> doc' !! k = value <$> doc !! k) /\
      (forall k, k ∉ map (fun f => snd (fst f)) fields -> doc' !! k = doc !! k) /\
      (forall i o d inEl, (i, o, d) ∈ fields -> doc !! i = Some inEl ->
         innerText <$> doc' !! o = Some (shown (value inEl) d)).
Proof.
  induction fields as [|[[i0 o0] d0] fields IH]; intros Hnd doc Hdom.
  - exists doc. split; [reflexivity|]. split; [reflexivity|].
    split; [reflexivity|]. intros i o d inEl Hin. inversion Hin.
  - simpl in Hnd. apply NoDup_cons in Hnd as [Hnew Hnd].
    destruct (Hdom i0 o0 d0) as [[inEl0 Hi0] [outEl0 Ho0]]; [left|].
    destruct (setVal_shows doc i0 o0 d0 inEl0 outEl0 Hi0 Ho0)
      as (doc1 & out1 & Hset & Hout1 & Hshown).
    destruct (setVal_frame _ _ _ _ _ Hset) as [Hother Hval].
    destruct (IH Hnd doc1) as (doc' & Hrest & Hval' & Hkeep & Hall).
    { intros i o d Hin. destruct (Hdom i o d) as [[a Ha] [b Hb]]; [right; exact Hin|].
      split.
      - pose proof (Hval i) as Hv. rewrite Ha in Hv.
        destruct (doc1 !! i); [eauto|discriminate].
      - pose proof (Hval o) as Hv. rewrite Hb in Hv.
        destruct (doc1 !! o); [eauto|discriminate]. }
    exists doc'. simpl. rewrite Hset. simpl. split; [exact Hrest|].
    split; [intros k; rewrite Hval', Hval; reflexivity|].
    split.
    + intros k Hk. simpl in Hk. apply not_elem_of_cons in Hk as [Hk0 Hk].
      rewrite (Hkeep k Hk). apply Hother. exact Hk0.
    + intros i o d inEl Hin Hi. apply elem_of_cons in Hin as [[= -> -> ->]|Hin].
      * rewrite (Hkeep o0 Hnew), Hout1. simpl. rewrite Hshown.
        rewrite Hi0 in Hi. injection Hi as <-. reflexivity.
      * pose proof (Hval i) as Hv. rewrite Hi in Hv.
        destruct (doc1 !! i) as [inEl1|] eqn:Hi1; [|discriminate].
        injection Hv as Hv. rewrite (Hall i o d inEl1 Hin Hi1), Hv. reflexivity.
Qed.

(** The table of [updateCV] has pairwise distinct output fields. *)
Lemma cvFields_outputs_distinct : NoDup (map (fun f => snd (fst f)) cvFields).
Proof. apply (@bool_decide_unpack _ (NoDup_dec _)). vm_compute. reflexivity. Qed.

Lemma updateCV_outputs (doc : gmap string element) :
  (forall i o d, (i, o, d) ∈ cvFields -> is_Some (doc !! i) /\ is_Some (doc !! o)) ->
  exists doc',
    updateCV doc = Some doc' /\
    forall i o d inEl, (i, o, d) ∈ cvFields -> doc !! i = Some inEl ->
      innerText <$> doc' !! o = Some (shown (value inEl) d).
Proof.
  intros Hdom.
  destruct (setVals_outputs cvFields cvFields_outputs_distinct doc Hdom)
    as (doc' & Hrun & _ & _ & Hall).
  exists doc'. split; [exact Hrun|exact Hall].
Qed.

Lemma setVal_output_witness :
  exists doc' out,
    setVal sampleDoc "inName" "outName" (Some (js "AD SOYAD")) = Some doc' /\
    doc' !! "outName" = Some out /\
    (trim (js "Ada Lovelace") <> [] -> innerText out = js "Ada Lovelace") /\
    (forallb isWhiteSpace (js "Ada Lovelace") = true -> innerText out = js "AD SOYAD") /\
    innerText out = shown (js "Ada Lovelace") (js "AD SOYAD").
Proof.
  apply (setVal_output sampleDoc "inName" "outName" (js "AD SOYAD")
           (Element (js "Ada Lovelace") [] "none")
           (Element [] (js "AD SOYAD") "none")).
  - reflexivity.
  - reflexivity.
Defined.

(** The blank title field shows the default text. *)
Example setVal_blank :
  (setVal sampleDoc "inTitle" "outTitle" (Some (220%N :: js "nvan"))
     ≫= fun doc' => innerText <$> doc' !! "outTitle")
  = Some (220%N :: js "nvan").
Proof. vm_compute. reflexivity. Qed.

End CvToolFacts.

(** * One step on the whole array *)

Section Sweep.
Context {T : Type} `{Number T}.
Local Open Scope num_scope.

Lemma stepNode_length (st : ecosystem T) (ns : list (node T)) (i : nat) :
  length (stepNode st ns i) = length ns.
Proof.
  unfold stepNode. destruct (ns !! i); [|reflexivity].
  destruct (decide _); [reflexivity|]. apply length_insert.
Qed.

Lemma sweep_length (st : ecosystem T) (idx : list nat) (ns : list (node T)) :
  length (fold_left (stepNode st) idx ns) = length ns.
Proof.
  revert ns. induction idx as [|i idx IH]; intros ns; simpl; [reflexivity|].
  rewrite IH. apply stepNode_length.
Qed.

Lemma stepNode_other (st : ecosystem T) (ns : list (node T)) (i j : nat) :
  i <> j -> stepNode st ns i !! j = ns !! j.
Proof.
  intros Hij. unfold stepNode. destruct (ns !! i); [|reflexivity].
  destruct (decide _); [reflexivity|]. apply list_lookup_insert_ne. exact Hij.
Qed.

Lemma stepNode_dragged (st : ecosystem T) (ns : list (node T)) (i : nat) :
  draggedNode st = Some i -> stepNode st ns i = ns.
Proof.
  intros Hd. unfold stepNode. destruct (ns !! i); [|reflexivity].
  rewrite decide_True by exact Hd. reflexivity.
Qed.

(** The loop leaves the nodes it has not reached yet as they were. *)
Lemma sweep_untouched (st : ecosystem T) (ns : list (node T)) (j : nat) :
  forall k, (k <= j)%nat -> fold_left (stepNode st) (seq 0 k) ns !! j = ns !! j.
Proof.
  induction k as [|k IH]; intros Hk; [reflexivity|].
  rewrite seq_S, fold_left_app. simpl.
  rewrite stepNode_other by lia. apply IH. lia.
Qed.

(** The dragged node is skipped by every pass. *)
Lemma sweep_dragged (st : ecosystem T) (i : nat) :
  draggedNode st = Some i ->
  forall (idx : list nat) (ns : list (node T)),
    fold_left (stepNode st) idx ns !! i = ns !! i.
Proof.
  intros Hd. induction idx as [|j idx IH]; intros ns; simpl; [reflexivity|].
  rewrite IH. destruct (decide (j = i)) as [->|Hne].
  - rewrite stepNode_dragged by exact Hd. reflexivity.
  - apply stepNode_other. exact Hne.
Qed.

(** After the loop has passed index [i], node [i] is the clamped result of
    integrating the force the node [a] it was before the step felt on the
    array [ns'] as it was at its turn. *)
Lemma sweep_lookup (st : ecosystem T) (ns : list (node T)) (i : nat) :
  draggedNode st <> Some i ->
  forall k, (i < k <= length ns)%nat ->
  exists ns' a,
    length ns' = length ns /\ ns !! i = Some a /\ ns' !! i = Some a /\
    fold_left (stepNode st) (seq 0 k) ns !! i =
      Some (boundary st (integrate st a (force st ns' i a))).
Proof.
  intros Hd. induction k as [|k IH]; intros Hk; [lia|].
  rewrite seq_S, fold_left_app. simpl.
  destruct (decide (i = k)) as [->|Hne].
  - set (ns' := fold_left (stepNode st) (seq 0 k) ns).
    assert (Hlen : length ns' = length ns) by apply sweep_length.
    destruct (lookup_lt_is_Some_2 ns' k) as [a Ha]; [lia|].
    exists ns', a. split; [exact Hlen|].
    split; [rewrite <- Ha; symmetry; apply sweep_untouched; lia|].
    split; [exact Ha|].
    unfold stepNode. rewrite Ha. rewrite decide_False by exact Hd.
    apply list_lookup_insert_eq. apply lookup_lt_Some in Ha. exact Ha.
  - destruct IH as (ns' & a & Hlen & Ha0 & Ha & Hres); [lia|].
    exists ns', a. split; [exact Hlen|]. split; [exact Ha0|]. split; [exact Ha|].
    rewrite stepNode_other by congruence. exact Hres.
Qed.

Lemma updatePhysics_lookup (st : ecosystem T) (i : nat) (n' : node T) :
  draggedNode st <> Some i ->
  nodes (updatePhysics st) !! i = Some n' ->
  exists ns a,
    length ns = length (nodes st) /\ nodes st !! i = Some a /\ ns !! i = Some a /\
    n' = boundary st (integrate st a (force st ns i a)).
Proof.
  intros Hd Hn. simpl in Hn.
  assert (Hi : (i < length (nodes st))%nat).
  { apply lookup_lt_Some in Hn. rewrite sweep_length in Hn. exact Hn. }
  destruct (sweep_lookup st (nodes st) i Hd (length (nodes st)))
    as (ns & a & Hlen & Ha0 & Ha & Hres); [lia|].
  exists ns, a. split; [exact Hlen|]. split; [exact Ha0|]. split; [exact Ha|].
  congruence.
Qed.






End Sweep.

(** * Order on doubles *)

Section FloatOrder.

Lemma SFcompare_swap (a b : spec_float) :
  SFcompare b a = option_map CompOpp (SFcompare a b).
Proof.
  destruct a as [sa|sa| |sa ma ea], b as [sb|sb| |sb mb eb]; simpl;
    try reflexivity;
    try (destruct sa; reflexivity); try (destruct sb; reflexivity);
    try (destruct sa, sb; reflexivity).
  destruct sa, sb; simpl; try reflexivity;
    rewrite (Z.compare_antisym ea eb); destruct (ea ?= eb)%Z; simpl;
    try reflexivity; unfold Pos.compare;
    rewrite (Pos.compare_cont_antisym ma mb Eq); simpl;
    try rewrite CompOpp_involutive; reflexivity.
Qed.

Lemma SFcompare_refl (a : spec_float) :
  a <> S754_nan -> SFcompare a a = Some Eq.
Proof.
  destruct a as [s|s| |s m e]; simpl; intros Ha; try congruence.
  - destruct s; reflexivity.
  - destruct s; rewrite Z.compare_refl; fold (Pos.compare m m);
      rewrite Pos.compare_refl; reflexivity.
Qed.

Lemma is_nan_false (a : float) :
  PrimFloat.is_nan a = false <-> Prim2SF a <> S754_nan.
Proof.
  unfold PrimFloat.is_nan. rewrite FloatAxioms.eqb_spec. unfold SFeqb. split.
  - intros Hn Ha. rewrite Ha in Hn. simpl in Hn. discriminate.
  - intros Ha. rewrite SFcompare_refl by exact Ha. reflexivity.
Qed.

Lemma leb_refl (a : float) : PrimFloat.is_nan a = false -> PrimFloat.leb a a = true.
Proof.
  intros Ha. rewrite FloatAxioms.leb_spec. unfold SFleb.
  rewrite SFcompare_refl; [reflexivity|]. apply is_nan_false. exact Ha.
Qed.

Lemma leb_numbers (a b : float) :
  PrimFloat.leb a b = true -> PrimFloat.is_nan a = false /\ PrimFloat.is_nan b = false.
Proof.
  rewrite FloatAxioms.leb_spec. unfold SFleb. intros Hc.
  split; apply is_nan_false; intros Hn; rewrite Hn in Hc; simpl in Hc;
    [|destruct (Prim2SF a)]; discriminate.
Qed.

Lemma ltb_false_leb (a b : float) :
  PrimFloat.ltb a b = false ->
  PrimFloat.is_nan a = false -> PrimFloat.is_nan b = false ->
  PrimFloat.leb b a = true.
Proof.
  rewrite FloatAxioms.ltb_spec, FloatAxioms.leb_spec. unfold SFltb, SFleb.
  intros Hlt Ha Hb. apply is_nan_false in Ha, Hb.
  rewrite SFcompare_swap.
  destruct (Prim2SF a) as [sa|sa| |sa ma ea] eqn:Ea, (Prim2SF b) as [sb|sb| |sb mb eb] eqn:Eb;
    try congruence;
    destruct (SFcompare _ _) as [[]|] eqn:Hc; simpl in *;
    try reflexivity; try discriminate.
Qed.

End FloatOrder.

(** * The soft boundary, on doubles *)

Section Boundary.
Local Open Scope num_scope.

Lemma clamp_velocity (margin dim p v : float) :
  snd (clamp margin dim p v) =
  if clamped margin dim p then v * lit (-5) 10 else v.
Proof.
  unfold clamp, clamped.
  destruct (p <? margin); [reflexivity|].
  destruct (p >? dim - margin); reflexivity.
Qed.

Lemma clamp_within (margin dim p v : float) :
  PrimFloat.leb margin (dim - margin) = true ->
  PrimFloat.is_nan (fst (clamp margin dim p v)) = false ->
  within margin (dim - margin) (fst (clamp margin dim p v)) = true.
Proof.
  intros Hroom Hnum. destruct (leb_numbers _ _ Hroom) as [Hm Hd].
  unfold within, clamp in *. simpl in *.
  destruct (PrimFloat.ltb p margin) eqn:Hlo; simpl in *.
  - rewrite (leb_refl _ Hm), Hroom. reflexivity.
  - destruct (PrimFloat.ltb (PrimFloat.sub dim margin) p) eqn:Hhi; simpl in *.
    + rewrite Hroom, (leb_refl _ Hd). reflexivity.
    + rewrite (ltb_false_leb p margin Hlo Hnum Hm).
      rewrite (ltb_false_leb (PrimFloat.sub dim margin) p Hhi Hd Hnum).
      reflexivity.
Qed.

(** C8, as the code has it.  After a step, a non-dragged node is the clamped
    result [boundary st n1] of the node [n1] that integrating the old node
    [a] produced ([ns] being the array at that node's turn).  On an
    axis where the canvas leaves room for the node (radius + 10 is at most
    dimension - radius - 10) and the new coordinate is a number, the
    coordinate lies in [radius + 10, dimension - radius - 10].  The velocity
    component of an axis is multiplied by -0.5 exactly when the clamp fired on
    that axis, and is the integrated one otherwise. *)
Theorem boundary_after_step (st : ecosystem float) (i : nat) (n' : node float) :
  draggedNode st <> Some i ->
  nodes (updatePhysics st) !! i = Some n' ->
  exists ns a n1,
    nodes st !! i = Some a /\ ns !! i = Some a /\
    n1 = integrate st a (force st ns i a) /\
    n' = boundary st n1 /\
    let margin := radius n' + #10 in
    (PrimFloat.leb margin (width st - margin) = true ->
     PrimFloat.is_nan (x n') = false ->
     within margin (width st - margin) (x n') = true) /\
    (PrimFloat.leb margin (height st - margin) = true ->
     PrimFloat.is_nan (y n') = false ->
     within margin (height st - margin) (y n') = true) /\
    vx n' = (if clamped margin (width st) (x n1) then vx n1 * lit (-5) 10 else vx n1) /\
    vy n' = (if clamped margin (height st) (y n1) then vy n1 * lit (-5) 10 else vy n1).
Proof.
  intros Hd Hn.
  destruct (updatePhysics_lookup st i n' Hd Hn) as (ns & a & _ & Ha0 & Ha & ->).
  exists ns, a, (integrate st a (force st ns i a)).
  split; [exact Ha0|]. split; [exact Ha|].
  split; [reflexivity|]. split; [reflexivity|].
  set (n1 := integrate st a (force st ns i a)).
  cbv zeta. change (radius (boundary st n1)) with (radius n1).
  split; [|split; [|split]].
  - apply clamp_within.
  - apply clamp_within.
  - apply clamp_velocity.
  - apply clamp_velocity.
Qed.

End Boundary.

(** * Repulsion within a step, on doubles *)

Section RepulsionInStep.
Local Open Scope num_scope.








End RepulsionInStep.

(** * Concrete runs on doubles *)

Section Runs.
Local Open Scope num_scope.

(** ** Springs: the two ends of one edge *)

(** C1.  On [springScene] the spring pulls the [from] end toward the other
    end (force +0.25 along x, the other end lying at larger x), and pushes
    the [to] end away from the other end (force +0.25 along x again, the
    other end lying at smaller x): the stretched spring does not contract
    from its [to] end, and one step moves that end farther from the other
    end, against the centre pull. *)
Theorem spring_to_end_pushed_away :
  springOn springScene 0 = (0.25%float, 0%float) /\
  springOn springScene 1 = (0.25%float, 0%float) /\
  (exists a b a',
     nodes springScene !! 1 = Some a /\ nodes springScene !! 0 = Some b /\
     nodes (updatePhysics springScene) !! 1 = Some a' /\
     PrimFloat.ltb (x b) (x a) = true /\
     PrimFloat.ltb 0 (fst (springOn springScene 1)) = true /\
     PrimFloat.ltb 0 (vx a') = true /\
     PrimFloat.ltb (x a) (x a') = true).
Proof.
  split; [vm_compute; reflexivity|]. split; [vm_compute; reflexivity|].
  eexists _, _, _. split; [reflexivity|]. split; [reflexivity|].
  split; [vm_compute; reflexivity|].
  repeat split; vm_compute; reflexivity.
Qed.

(** ** Coincident nodes *)

(** C3.  One step on [coincidentScene] leaves node 0 with NaN position and
    velocity: the repulsion term divides the zero displacement by the zero
    distance. *)
Theorem coincident_nodes_nan :
  exists n, nodes (updatePhysics coincidentScene) !! 0 = Some n /\
    PrimFloat.is_nan (x n) = true /\ PrimFloat.is_nan (y n) = true /\
    PrimFloat.is_nan (vx n) = true /\ PrimFloat.is_nan (vy n) = true.
Proof.
  eexists. split; [vm_compute; reflexivity|].
  repeat split; vm_compute; reflexivity.
Qed.

(** ** Missing endpoints *)

(** C2 fails as stated: a connection naming a skill that is not in the
    catalog is accepted; the edge is built with a missing endpoint and the
    next physics step runs with it. *)
Lemma missing_endpoint_accepted :
  let st := initializeSkills (T:=float) (setupCanvas defaults #800 #600 #1)
              [python] [("Python", "Rust")] (fun _ cx cy => (cx, cy)) in
  connections st = [Connection (Some 0) None] /\
  connections (updatePhysics st) = [Connection (Some 0) None].
Proof. split; reflexivity. Qed.

(** The catalog of the source resolves completely. *)
Lemma catalog_resolves :
  let st := initializeSkills (T:=float) (setupCanvas defaults #800 #600 #1)
              skills connectionMap (fun _ cx cy => (cx, cy)) in
  length (nodes st) = 8 /\
  connections st =
    [Connection (Some 0) (Some 6); Connection (Some 0) (Some 1);
     Connection (Some 1) (Some 3); Connection (Some 2) (Some 4);
     Connection (Some 2) (Some 7); Connection (Some 5) (Some 4);
     Connection (Some 3) (Some 7); Connection (Some 4) (Some 6);
     Connection (Some 1) (Some 7)].
Proof. split; vm_compute; reflexivity. Qed.

(** ** Resizing *)

(** C4 fails as stated: resizing to the same 800 x 600 reassigns
    400 + (40.1 - 400), which is not the double 40.1.  The literal 40.1 is the
    double 40.100000000000001421...; the difference 40.1 - 400 needs more
    bits than a double near 360 has and rounds to -359.899999999999977262...;
    adding 400 gives 40.100000000000022737..., three doubles above 40.1,
    which JavaScript prints as 40.10000000000002. *)
Lemma resize_moves_node :
  exists n n',
    nodes resizeScene !! 0 = Some n /\
    nodes (onResize resizeScene #800 #600 #1) !! 0 = Some n' /\
    x n' <> x n /\
    PrimFloat.ltb (x n) (x n') = true /\
    x n' = PrimFloat.next_up (PrimFloat.next_up (PrimFloat.next_up (x n))).
Proof.
  eexists _, _. split; [reflexivity|]. split; [reflexivity|]. split.
  - intros Heq. apply (f_equal (PrimFloat.eqb (lit 401 10))) in Heq.
    vm_compute in Heq. discriminate.
  - split; vm_compute; reflexivity.
Qed.

(** A node at (200, 300) is given back its coordinates. *)
Lemma resize_reassigns_witness :
  exists n',
    nodes (onResize (scene #800 #600 [nodeAt 0 #200 #300] []) #800 #600 #1) !! 0 = Some n' /\
    x n' = #800 / #2 + (#200 - #800 / #2) /\
    y n' = #600 / #2 + (#300 - #600 / #2) /\
    id n' = 0 /\ vx n' = #0 /\ vy n' = #0 /\
    radius n' = #30 /\ info n' = python /\
    (#800 / #2 + (#200 - #800 / #2) = #200 ->
     #600 / #2 + (#300 - #600 / #2) = #300 -> n' = nodeAt 0 #200 #300).
Proof.
  apply (resize_reassigns (scene #800 #600 [nodeAt 0 #200 #300] []) #800 #600 #1
           0 (nodeAt 0 #200 #300)).
  reflexivity.
Defined.

(** ** The walls of a narrow canvas *)

(** C8 fails as stated: after a step the node sits at 40, which is not in
    [40, 20]. *)
Lemma narrow_canvas_outside :
  exists n',
    draggedNode narrowScene = None /\
    nodes (updatePhysics narrowScene) !! 0 = Some n' /\
    x n' = 40%float /\
    within (radius n' + #10) (width narrowScene - (radius n' + #10)) (x n') = false.
Proof.
  eexists. split; [reflexivity|]. split; [vm_compute; reflexivity|].
  split; vm_compute; reflexivity.
Qed.

Lemma boundary_after_step_witness :
  let n' := afterStep springScene 0 in
  within (radius n' + #10) (width springScene - (radius n' + #10)) (x n') = true /\
  within (radius n' + #10) (height springScene - (radius n' + #10)) (y n') = true.
Proof.
  assert (Hd : draggedNode springScene <> Some 0) by discriminate.
  assert (Hn : nodes (updatePhysics springScene) !! 0 = Some (afterStep springScene 0))
    by (vm_compute; reflexivity).
  destruct (boundary_after_step springScene 0 (afterStep springScene 0) Hd Hn)
    as (ns & a & n1 & _ & _ & _ & _ & Hx & Hy & _).
  split; [apply Hx|apply Hy]; vm_compute; reflexivity.
Defined.

(** ** Repulsion and dragging on [springScene] *)



Lemma drag_move_witness :
  let e := Pointer #350 #275 #10 #20 in
  exists n',
    nodes (onMouseMove dragScene e) !! 1 = Some n' /\
    x n' = clientX e - rectLeft e /\
    y n' = clientY e - rectTop e /\
    x n' = mouseX (onMouseMove dragScene e) /\
    y n' = mouseY (onMouseMove dragScene e) /\
    vx n' = #0 /\ vy n' = #0.
Proof.
  apply (drag_move_pins_node dragScene (Pointer #350 #275 #10 #20) 1 (nodeAt 1 #500 #300)).
  - reflexivity.
  - reflexivity.
Defined.

End Runs.

(** * Further properties of the visualisation *)

Section StepFrame.
Context {T : Type} `{Number T}.
Local Open Scope num_scope.

(** A physics step does not touch the dragged node: the pointer alone moves
    it. *)
Theorem step_skips_dragged (st : ecosystem T) (d : nat) :
  draggedNode st = Some d ->
  nodes (updatePhysics st) !! d = nodes st !! d.
Proof.
  intros Hd. simpl. apply (sweep_dragged st d Hd).
Qed.

Lemma insert_identity (ns : list (node T)) (i : nat) (a n' : node T) :
  ns !! i = Some a -> identity n' = identity a ->
  map identity (<[i := n']> ns) = map identity ns.
Proof.
  intros Ha Hid.
  change (identity <$> <[i := n']> ns = identity <$> ns).
  rewrite list_fmap_insert. apply list_insert_id.
  rewrite list_lookup_fmap, Ha, Hid. reflexivity.
Qed.

Lemma stepNode_identity (st : ecosystem T) (ns : list (node T)) (i : nat) :
  map identity (stepNode st ns i) = map identity ns.
Proof.
  unfold stepNode. destruct (ns !! i) as [a|] eqn:Ha; [|reflexivity].
  destruct (decide _); [reflexivity|].
  apply (insert_identity ns i a); [exact Ha|reflexivity].
Qed.

Lemma sweep_identity (st : ecosystem T) (idx : list nat) :
  forall ns, map identity (fold_left (stepNode st) idx ns) = map identity ns.
Proof.
  induction idx as [|i idx IH]; intros ns; simpl; [reflexivity|].
  rewrite IH. apply stepNode_identity.
Qed.

(** A physics step moves nodes and nothing else: the nodes keep their number,
    order, ids, radii and catalog data, and the edges, the drag and hover
    references, the parameters and the canvas geometry are as before. *)
Theorem step_moves_nodes_only (st : ecosystem T) :
  map identity (nodes (updatePhysics st)) = map identity (nodes st) /\
  length (nodes (updatePhysics st)) = length (nodes st) /\
  updatePhysics st = set_nodes st (nodes (updatePhysics st)).
Proof.
  split; [apply sweep_identity|]. split; [apply sweep_length|reflexivity].
Qed.

(** An edge that does not touch the node, or whose other endpoint is missing,
    adds nothing to the force on it. *)
Lemma spring_idle (st : ecosystem T) (ns : list (node T)) (i : nat) (a : node T)
    (f : T * T) (conn : connection) :
  pulls i conn = false -> spring st ns i a f conn = f.
Proof.
  unfold pulls, spring. destruct conn as [fr t]; simpl.
  destruct (decide (fr = Some i)) as [Hf|Hf].
  - destruct t as [j|]; simpl; [|reflexivity].
    intros Hp. discriminate.
  - destruct (decide (t = Some i)) as [Ht|Ht]; [|reflexivity].
    destruct fr as [j|]; simpl; [|reflexivity].
    intros Hp. discriminate.
Qed.

(** The spring force on a node is that of the edges that touch it and have
    their other endpoint: edges elsewhere in the graph and edges left with a
    missing endpoint are passed over, whatever their number and order. *)
Theorem springs_of_touching_edges (st : ecosystem T) (ns : list (node T)) (i : nat)
    (a : node T) (cs : list connection) (f : T * T) :
  fold_left (spring st ns i a) cs f =
  fold_left (spring st ns i a) (List.filter (pulls i) cs) f.
Proof.
  revert f. induction cs as [|c cs IH]; intros f; simpl; [reflexivity|].
  destruct (pulls i c) eqn:Hp; simpl.
  - apply IH.
  - rewrite (spring_idle st ns i a f c Hp). apply IH.
Qed.

End StepFrame.

(** ** Any sequence of events *)

Section Machine.
Context {T : Type} `{Number T}.
Local Open Scope num_scope.

Lemma handleHover_fields (st : ecosystem T) (px py : T) :
  nodes (handleHover st px py) = nodes st /\
  connections (handleHover st px py) = connections st /\
  parameters (handleHover st px py) = parameters st /\
  draggedNode (handleHover st px py) = draggedNode st /\
  hoveredNode (handleHover st px py) = getNodeAtPosition st px py.
Proof.
  unfold handleHover.
  destruct (decide (getNodeAtPosition st px py = hoveredNode st)) as [He|Hne].
  - repeat split; try reflexivity. symmetry. exact He.
  - destruct (getNodeAtPosition st px py); repeat split; reflexivity.
Qed.

Lemma handle_constants (st : ecosystem T) (ev : event T) :
  map identity (nodes (handle st ev)) = map identity (nodes st) /\
  connections (handle st ev) = connections st /\
  parameters (handle st ev) = parameters st.
Proof.
  destruct ev as [e|e| | | |rw rh dpr| ]; simpl.
  - unfold onMouseMove. simpl. destruct (draggedNode st) as [d|]; simpl.
    + destruct (nodes st !! d) as [n|] eqn:Hn; simpl; [|repeat split; reflexivity].
      split; [|split; reflexivity].
      apply (insert_identity (nodes st) d n); [exact Hn|reflexivity].
    + repeat split; reflexivity.
  - unfold onMouseDown. simpl.
    destruct (getNodeAtPosition _ _ _); repeat split; reflexivity.
  - unfold onMouseUp. destruct (draggedNode st); repeat split; reflexivity.
  - repeat split; reflexivity.
  - unfold onHoverTimer. destruct (hoverTimer st); [|repeat split; reflexivity].
    destruct (handleHover_fields (set_hoverTimer st false) (mouseX st) (mouseY st))
      as (Hn & Hc & Hp & _).
    rewrite Hn, Hc, Hp. repeat split; reflexivity.
  - split; [|split; reflexivity].
    rewrite map_map. apply map_ext. intros n. reflexivity.
  - split; [apply sweep_identity|]. split; reflexivity.
Qed.

(** Whatever the user and the host do, the graph stays the one that was
    initialised: the same nodes in the same order (ids, radii, catalog
    data), the same edges, the same physics parameters. *)
Theorem run_keeps_graph (st : ecosystem T) (evs : list (event T)) :
  map identity (nodes (run st evs)) = map identity (nodes st) /\
  connections (run st evs) = connections st /\
  parameters (run st evs) = parameters st.
Proof.
  unfold run. revert st. induction evs as [|ev evs IH]; intros st; simpl.
  - repeat split; reflexivity.
  - destruct (IH (handle st ev)) as (Hn & Hc & Hp).
    destruct (handle_constants st ev) as (Hn' & Hc' & Hp').
    rewrite Hn, Hc, Hp. repeat split; assumption.
Qed.

Lemma getNodeAtPosition_bound (st : ecosystem T) (px py : T) (i : nat) :
  getNodeAtPosition st px py = Some i -> (i < length (nodes st))%nat.
Proof.
  unfold getNodeAtPosition. intros Hi.
  apply hitLoop_Some in Hi as (Hlt & _). exact Hlt.
Qed.

Lemma handle_consistent (st : ecosystem T) (ev : event T) :
  consistent st -> consistent (handle st ev).
Proof.
  intros (Hd & Hh & Hp).
  destruct ev as [e|e| | | |rw rh dpr| ]; simpl.
  - unfold onMouseMove. simpl. destruct (draggedNode st) as [d|] eqn:Ed; simpl.
    + destruct (nodes st !! d) as [n|] eqn:Hn; simpl.
      * unfold consistent. simpl. rewrite length_insert, Ed.
        split; [exact Hd|]. split; [exact Hh|exact Hp].
      * unfold consistent. simpl. rewrite Ed.
        split; [exact Hd|]. split; [exact Hh|exact Hp].
    + unfold consistent. simpl. rewrite Ed.
      split; [exact Hd|]. split; [exact Hh|exact Hp].
  - unfold onMouseDown. simpl.
    destruct (getNodeAtPosition _ _ _) as [d|] eqn:Eg; unfold consistent; simpl.
    + split; [|split; [exact Hh|exact Hp]].
      intros d' [= <-]. apply getNodeAtPosition_bound in Eg. exact Eg.
    + split; [discriminate|]. split; [exact Hh|exact Hp].
  - unfold onMouseUp. destruct (draggedNode st) eqn:Ed; unfold consistent; simpl.
    + split; [discriminate|]. split; [exact Hh|exact Hp].
    + rewrite Ed. split; [discriminate|]. split; [exact Hh|exact Hp].
  - unfold consistent. simpl. split; [discriminate|]. split; [discriminate|reflexivity].
  - unfold onHoverTimer. destruct (hoverTimer st); [|split; [exact Hd|split; [exact Hh|exact Hp]]].
    unfold handleHover.
    destruct (decide _) as [He|Hne].
    + unfold consistent. simpl. split; [exact Hd|]. split; [exact Hh|exact Hp].
    + destruct (getNodeAtPosition _ _ _) as [i|] eqn:Eg; unfold consistent; simpl.
      * split; [exact Hd|]. split; [|reflexivity].
        intros h [= <-]. apply getNodeAtPosition_bound in Eg. exact Eg.
      * split; [exact Hd|]. split; [discriminate|reflexivity].
  - unfold consistent. simpl. rewrite length_map.
    split; [exact Hd|]. split; [exact Hh|exact Hp].
  - unfold consistent. simpl. rewrite sweep_length.
    split; [exact Hd|]. split; [exact Hh|exact Hp].
Qed.

(** The references stay good: after any events the dragged node and the
    hovered node, when there is one, are nodes of the array, and the popup
    shows exactly the hovered node (none when nothing is hovered). *)
Theorem run_consistent (st : ecosystem T) (evs : list (event T)) :
  consistent st -> consistent (run st evs).
Proof.
  unfold run. revert st. induction evs as [|ev evs IH]; intros st Hc; simpl.
  - exact Hc.
  - apply IH. apply handle_consistent. exact Hc.
Qed.

End Machine.

(** ** Gestures *)

Section Gestures.
Context {T : Type} `{Number T}.
Local Open Scope num_scope.

(** Press on a node, move, release: the node is left where the pointer was at
    the last move, at rest; no other node has moved, nothing is dragged any
    more and the cursor is the open hand. *)
Theorem drag_and_drop (st : ecosystem T) (e1 e2 : pointer T) (d : nat) (n : node T) :
  getNodeAtPosition st (clientX e1 - rectLeft e1) (clientY e1 - rectTop e1) = Some d ->
  nodes st !! d = Some n ->
  let st' := run st [MouseDown e1; MouseMove e2; MouseUp] in
  nodes st' =
    <[d := setNodePos n (clientX e2 - rectLeft e2) (clientY e2 - rectTop e2)]> (nodes st) /\
  draggedNode st' = None /\
  cursor st' = "grab".
Proof.
  intros Hhit Hn. unfold run. simpl.
  unfold onMouseDown. simpl.
  change (getNodeAtPosition (set_mouse st (clientX e1 - rectLeft e1) (clientY e1 - rectTop e1))
            (clientX e1 - rectLeft e1) (clientY e1 - rectTop e1))
    with (getNodeAtPosition st (clientX e1 - rectLeft e1) (clientY e1 - rectTop e1)).
  rewrite Hhit. unfold onMouseMove. simpl. rewrite Hn. simpl.
  repeat split; reflexivity.
Qed.

(** A press that hits no node drags nothing: the moves that follow leave every
    node where it is. *)
Theorem press_on_background (st : ecosystem T) (e1 e2 : pointer T) :
  getNodeAtPosition st (clientX e1 - rectLeft e1) (clientY e1 - rectTop e1) = None ->
  let st' := run st [MouseDown e1; MouseMove e2] in
  nodes st' = nodes st /\ draggedNode st' = None /\ hoverTimer st' = true.
Proof.
  intros Hhit. unfold run. simpl. unfold onMouseDown. simpl.
  change (getNodeAtPosition (set_mouse st (clientX e1 - rectLeft e1) (clientY e1 - rectTop e1))
            (clientX e1 - rectLeft e1) (clientY e1 - rectTop e1))
    with (getNodeAtPosition st (clientX e1 - rectLeft e1) (clientY e1 - rectTop e1)).
  rewrite Hhit. repeat split; reflexivity.
Qed.

Lemma moves_without_drag (st : ecosystem T) (es : list (pointer T)) :
  draggedNode st = None ->
  nodes (run st (map MouseMove es)) = nodes st /\
  draggedNode (run st (map MouseMove es)) = None /\
  hoveredNode (run st (map MouseMove es)) = hoveredNode st.
Proof.
  unfold run. revert st. induction es as [|e es IH]; intros st Hd; simpl.
  - repeat split; [exact Hd].
  - unfold onMouseMove at 1 2 3. simpl. rewrite Hd.
    apply (IH (set_hoverTimer
                 (set_mouse st (clientX e - rectLeft e) (clientY e - rectTop e)) true)).
    exact Hd.
Qed.

(** Hover detection is debounced: after any number of pointer moves with
    nothing dragged, the timer callback hit-tests once, at the position of the
    last move; the hovered node is the topmost node there, and no node has
    moved. *)
Theorem hover_debounced (st : ecosystem T) (es : list (pointer T)) (e : pointer T) :
  draggedNode st = None ->
  let st' := run st (map MouseMove es ++ [MouseMove e; HoverTimer]) in
  hoveredNode st' =
    getNodeAtPosition st (clientX e - rectLeft e) (clientY e - rectTop e) /\
  hoverTimer st' = false /\
  nodes st' = nodes st /\
  run st' [HoverTimer] = st'.
Proof.
  intros Hd. cbv zeta. unfold run. rewrite fold_left_app.
  destruct (moves_without_drag st es Hd) as (Hn & Hd' & _).
  unfold run in Hn, Hd'.
  set (st1 := fold_left handle (map MouseMove es) st) in *.
  set (mx := clientX e - rectLeft e). set (my := clientY e - rectTop e).
  change (fold_left handle [MouseMove e; HoverTimer] st1)
    with (onHoverTimer (onMouseMove st1 e)).
  assert (Hm : onMouseMove st1 e = set_hoverTimer (set_mouse st1 mx my) true).
  { unfold onMouseMove. simpl. rewrite Hd'. reflexivity. }
  rewrite Hm.
  set (st2 := set_hoverTimer (set_hoverTimer (set_mouse st1 mx my) true) false).
  change (onHoverTimer (set_hoverTimer (set_mouse st1 mx my) true))
    with (handleHover st2 mx my).
  destruct (handleHover_fields st2 mx my) as (Hn2 & _ & _ & _ & Hh2).
  assert (Ht : hoverTimer (handleHover st2 mx my) = false).
  { unfold handleHover. destruct (decide _); [reflexivity|].
    destruct (getNodeAtPosition _ _ _); reflexivity. }
  split.
  - rewrite Hh2. unfold getNodeAtPosition. simpl. rewrite Hn. reflexivity.
  - split; [exact Ht|]. split.
    + rewrite Hn2. simpl. exact Hn.
    + simpl. unfold onHoverTimer. rewrite Ht. reflexivity.
Qed.

End Gestures.

(** ** NaN positions on doubles *)

Section NaNs.
Local Open Scope num_scope.

Lemma is_nan_true (a : float) :
  PrimFloat.is_nan a = true <-> Prim2SF a = S754_nan.
Proof.
  split.
  - intros Ha. destruct (Prim2SF a) eqn:Ea; try reflexivity;
      assert (Hf : PrimFloat.is_nan a = false)
        by (apply is_nan_false; rewrite Ea; discriminate);
      congruence.
  - intros Ea. destruct (PrimFloat.is_nan a) eqn:Ha; [reflexivity|].
    apply is_nan_false in Ha. contradiction.
Qed.

Lemma nan_sub (a b : float) :
  PrimFloat.is_nan a = true \/ PrimFloat.is_nan b = true ->
  PrimFloat.is_nan (a - b) = true.
Proof.
  intros Hab. apply is_nan_true. simpl. rewrite sub_spec. unfold SF64sub.
  destruct Hab as [Hn|Hn]; apply is_nan_true in Hn; rewrite Hn;
    [|destruct (Prim2SF a)]; reflexivity.
Qed.

Lemma nan_add (a b : float) :
  PrimFloat.is_nan a = true \/ PrimFloat.is_nan b = true ->
  PrimFloat.is_nan (a + b) = true.
Proof.
  intros Hab. apply is_nan_true. simpl. rewrite add_spec. unfold SF64add.
  destruct Hab as [Hn|Hn]; apply is_nan_true in Hn; rewrite Hn;
    [|destruct (Prim2SF a)]; reflexivity.
Qed.

Lemma nan_mul (a b : float) :
  PrimFloat.is_nan a = true \/ PrimFloat.is_nan b = true ->
  PrimFloat.is_nan (a * b) = true.
Proof.
  intros Hab. apply is_nan_true. simpl. rewrite mul_spec. unfold SF64mul.
  destruct Hab as [Hn|Hn]; apply is_nan_true in Hn; rewrite Hn;
    [|destruct (Prim2SF a)]; reflexivity.
Qed.

Lemma nan_sqrt (a : float) :
  PrimFloat.is_nan a = true -> PrimFloat.is_nan (nsqrt a) = true.
Proof.
  intros Hn. apply is_nan_true. simpl. rewrite sqrt_spec. unfold SF64sqrt.
  apply is_nan_true in Hn. rewrite Hn. reflexivity.
Qed.

Lemma nan_ltb (a b : float) :
  PrimFloat.is_nan a = true \/ PrimFloat.is_nan b = true -> (a <? b) = false.
Proof.
  intros Hab. simpl. rewrite FloatAxioms.ltb_spec. unfold SFltb.
  destruct Hab as [Hn|Hn]; apply is_nan_true in Hn; rewrite Hn;
    [|destruct (Prim2SF a)]; reflexivity.
Qed.

(** A node whose position is NaN is hit by no point. *)
Lemma nan_not_hit (px py : float) (n : node float) :
  PrimFloat.is_nan (x n) = true \/ PrimFloat.is_nan (y n) = true ->
  hits px py n = false.
Proof.
  intros Hn. unfold hits. apply nan_ltb. left. apply nan_sqrt. apply nan_add.
  destruct Hn as [Hx|Hy]; [left|right]; apply nan_mul; left; apply nan_sub;
    right; assumption.
Qed.

Lemma hit_is_number (st : ecosystem float) (px py : float) (i : nat) (n : node float) :
  getNodeAtPosition st px py = Some i ->
  nodes st !! i = Some n ->
  PrimFloat.is_nan (x n) = false /\ PrimFloat.is_nan (y n) = false.
Proof.
  unfold getNodeAtPosition. intros Hi Hn.
  apply hitLoop_Some in Hi as (_ & (m & Hm & Hhit) & _).
  rewrite Hn in Hm. injection Hm as <-.
  destruct (PrimFloat.is_nan (x n)) eqn:Hx.
  - rewrite nan_not_hit in Hhit by (left; exact Hx). discriminate.
  - destruct (PrimFloat.is_nan (y n)) eqn:Hy; [|split; reflexivity].
    rewrite nan_not_hit in Hhit by (right; exact Hy). discriminate.
Qed.

(** The hit-test never returns a node whose position is NaN: such a node
    cannot be hovered or picked up any more. *)
Theorem nan_node_unreachable (st : ecosystem float) (px py : float) (i : nat) (n : node float) :
  getNodeAtPosition st px py = Some i ->
  nodes st !! i = Some n ->
  PrimFloat.is_nan (x n) = false /\ PrimFloat.is_nan (y n) = false.
Proof.
  intros Hi Hn. split.
  - destruct (hit_is_number st px py i n Hi Hn) as [Hx _]. exact Hx.
  - destruct (hit_is_number st px py i n Hi Hn) as [_ Hy]. exact Hy.
Qed.

Lemma clamp_nan (margin dim p v : float) :
  PrimFloat.is_nan p = true -> fst (clamp margin dim p v) = p.
Proof.
  intros Hp. unfold clamp.
  rewrite (nan_ltb p margin) by (left; exact Hp).
  rewrite (nan_ltb (nsub dim margin) p) by (right; exact Hp). reflexivity.
Qed.

Lemma stepped_nan (st : ecosystem float) (a : node float) (f : float * float) :
  (PrimFloat.is_nan (x a) = true ->
   PrimFloat.is_nan (x (boundary st (integrate st a f))) = true) /\
  (PrimFloat.is_nan (y a) = true ->
   PrimFloat.is_nan (y (boundary st (integrate st a f))) = true).
Proof.
  unfold boundary, integrate. cbn [x y vx vy radius].
  split; intros Hn; rewrite clamp_nan; apply nan_add; left; exact Hn.
Qed.

Lemma step_keeps_nan (st : ecosystem float) (i : nat) (a : node float) :
  nodes st !! i = Some a ->
  draggedNode st <> Some i ->
  exists n',
    nodes (updatePhysics st) !! i = Some n' /\
    (PrimFloat.is_nan (x a) = true -> PrimFloat.is_nan (x n') = true) /\
    (PrimFloat.is_nan (y a) = true -> PrimFloat.is_nan (y n') = true).
Proof.
  intros Ha Hd.
  assert (Hi : (i < length (nodes (updatePhysics st)))%nat).
  { simpl. rewrite sweep_length. apply lookup_lt_Some in Ha. exact Ha. }
  destruct (lookup_lt_is_Some_2 _ _ Hi) as [n' Hn'].
  exists n'. split; [exact Hn'|].
  destruct (updatePhysics_lookup st i n' Hd Hn') as (ns & a' & _ & Ha' & _ & ->).
  rewrite Ha in Ha'. injection Ha' as <-.
  apply stepped_nan.
Qed.

(** A physics step never repairs a NaN coordinate: the coordinate of a
    non-dragged node that is NaN before the step is NaN after it. *)
Theorem nan_survives_step (st : ecosystem float) (i : nat) (a : node float) :
  nodes st !! i = Some a ->
  draggedNode st <> Some i ->
  exists n',
    nodes (updatePhysics st) !! i = Some n' /\
    (PrimFloat.is_nan (x a) = true -> PrimFloat.is_nan (x n') = true) /\
    (PrimFloat.is_nan (y a) = true -> PrimFloat.is_nan (y n') = true).
Proof.
  intros Ha Hd. destruct (step_keeps_nan st i a Ha Hd) as (n' & Hn' & Hx & Hy).
  exists n'. split; [exact Hn'|]. split; [exact Hx|exact Hy].
Qed.

Lemma handle_keeps_lost (st : ecosystem float) (i : nat) (n : node float) (ev : event float) :
  nodes st !! i = Some n -> draggedNode st <> Some i -> lost n ->
  exists n', nodes (handle st ev) !! i = Some n' /\ lost n' /\
             draggedNode (handle st ev) <> Some i.
Proof.
  intros Hn Hd Hl.
  destruct ev as [e|e| | | |rw rh dpr| ]; simpl.
  - unfold onMouseMove. simpl. destruct (draggedNode st) as [d|] eqn:Ed; simpl.
    + destruct (nodes st !! d) as [m|] eqn:Hm; simpl.
      * exists n. rewrite list_lookup_insert_ne by congruence. rewrite Ed.
        split; [exact Hn|]. split; [exact Hl|exact Hd].
      * exists n. rewrite Ed. split; [exact Hn|]. split; [exact Hl|exact Hd].
    + exists n. rewrite Ed. split; [exact Hn|]. split; [exact Hl|discriminate].
  - unfold onMouseDown. simpl.
    destruct (getNodeAtPosition _ _ _) as [d|] eqn:Eg; simpl.
    + exists n. split; [exact Hn|]. split; [exact Hl|].
      intros [= ->].
      destruct (hit_is_number _ _ _ i n Eg Hn) as [Hx Hy].
      destruct Hl as [Hl|Hl]; congruence.
    + exists n. split; [exact Hn|]. split; [exact Hl|discriminate].
  - unfold onMouseUp. destruct (draggedNode st) eqn:Ed; simpl.
    + exists n. split; [exact Hn|]. split; [exact Hl|discriminate].
    + exists n. rewrite Ed. split; [exact Hn|]. split; [exact Hl|discriminate].
  - exists n. split; [exact Hn|]. split; [exact Hl|discriminate].
  - unfold onHoverTimer. destruct (hoverTimer st).
    + destruct (handleHover_fields (set_hoverTimer st false) (mouseX st) (mouseY st))
        as (Hns & _ & _ & Hdr & _).
      rewrite Hns, Hdr. exists n. split; [exact Hn|]. split; [exact Hl|exact Hd].
    + exists n. split; [exact Hn|]. split; [exact Hl|exact Hd].
  - exists (recentre (setupCanvas st rw rh dpr) n).
    rewrite list_lookup_fmap, Hn. split; [reflexivity|]. split; [|exact Hd].
    destruct Hl as [Hl|Hl]; [left|right]; cbn [recentre x y];
      apply nan_add; right; apply nan_sub; left; exact Hl.
  - destruct (step_keeps_nan st i n Hn Hd) as (n' & Hn' & Hx & Hy).
    exists n'. split; [exact Hn'|]. split; [|exact Hd].
    destruct Hl as [Hl|Hl]; [left; apply Hx|right; apply Hy]; exact Hl.
Qed.

(** A NaN position is for good: once a node that is not being dragged has a
    NaN coordinate, no sequence of pointer events, hover timers, resizes and
    frames gives it a position again, and no press can pick it up. *)
Theorem nan_is_forever (st : ecosystem float) (i : nat) (n : node float)
    (evs : list (event float)) :
  nodes st !! i = Some n -> draggedNode st <> Some i -> lost n ->
  exists n', nodes (run st evs) !! i = Some n' /\ lost n' /\
             draggedNode (run st evs) <> Some i.
Proof.
  unfold run. revert st n. induction evs as [|ev evs IH]; intros st n Hn Hd Hl; simpl.
  - exists n. split; [exact Hn|]. split; [exact Hl|exact Hd].
  - destruct (handle_keeps_lost st i n ev Hn Hd Hl) as (n1 & Hn1 & Hl1 & Hd1).
    apply (IH (handle st ev) n1 Hn1 Hd1 Hl1).
Qed.

End NaNs.

(** ** Labels *)

Section Labels.

Lemma split_cons (sep : Ascii.ascii) (s : string) :
  exists w ws, split sep s = w :: ws.
Proof.
  destruct s as [|c s]; simpl; [eauto|].
  destruct (Ascii.eqb c sep); [eauto|].
  destruct (split sep s); eauto.
Qed.

Lemma join_cons (sep : Ascii.ascii) (w : string) (ws : list string) :
  ws <> [] -> join sep (w :: ws) = String.append w (String sep (join sep ws)).
Proof. destruct ws; [congruence|reflexivity]. Qed.

(** Joining what was split gives the string back. *)
Lemma join_split (sep : Ascii.ascii) (s : string) :
  join sep (split sep s) = s.
Proof.
  induction s as [|c s IH]; simpl; [reflexivity|].
  destruct (Ascii.eqb c sep) eqn:Hc.
  - apply Ascii.eqb_eq in Hc as ->.
    destruct (split_cons sep s) as (w & ws & Hs).
    rewrite join_cons by (rewrite Hs; discriminate).
    simpl. rewrite IH. reflexivity.
  - destruct (split sep s) as [|w ws] eqn:Hs.
    + destruct (split_cons sep s) as (w & ws & Hs'). congruence.
    + destruct ws as [|w' ws]; simpl in *; rewrite <- IH; reflexivity.
Qed.

Lemma split_words (sep : Ascii.ascii) (s : string) :
  (1 <? length (split sep s))%nat = occurs sep s /\
  occurs sep (hd EmptyString (split sep s)) = false.
Proof.
  induction s as [|c s [IH1 IH2]]; simpl; [split; reflexivity|].
  destruct (Ascii.eqb c sep) eqn:Hc; simpl.
  - destruct (split_cons sep s) as (w & ws & Hs). rewrite Hs. simpl. split; reflexivity.
  - destruct (split sep s) as [|w ws] eqn:Hs.
    + destruct (split_cons sep s) as (w & ws & Hs'). congruence.
    + simpl in *. rewrite Hc. simpl. split; [exact IH1|exact IH2].
Qed.

(** A label loses nothing of the name: its lines, joined by a space, are the
    name.  There are two lines exactly when the name contains a space and is
    longer than 12; the first line is then the first word (it has no
    space). *)
Theorem label_keeps_name (nm : string) :
  join (Ascii.ascii_of_nat 32) (labelLines nm) = nm /\
  (occurs (Ascii.ascii_of_nat 32) nm && (12 <? String.length nm)%nat = true ->
   exists l1 l2, labelLines nm = [l1; l2] /\ occurs (Ascii.ascii_of_nat 32) l1 = false) /\
  (occurs (Ascii.ascii_of_nat 32) nm && (12 <? String.length nm)%nat = false ->
   labelLines nm = [nm]).
Proof.
  unfold labelLines.
  destruct (split_words (Ascii.ascii_of_nat 32) nm) as [Hlen Hhd].
  rewrite Hlen.
  destruct (occurs (Ascii.ascii_of_nat 32) nm && (12 <? String.length nm)%nat) eqn:Hc.
  - split; [|split; [intros _|discriminate]].
    + pose proof (join_split (Ascii.ascii_of_nat 32) nm) as Hj.
      destruct (split (Ascii.ascii_of_nat 32) nm) as [|w ws] eqn:Hs.
      * destruct (split_cons (Ascii.ascii_of_nat 32) nm) as (w & ws & Hs'). congruence.
      * simpl hd. simpl tl.
        destruct ws as [|w' ws].
        { apply andb_true_iff in Hc as [Hc _]. rewrite Hc in Hlen.
          vm_compute in Hlen. discriminate. }
        rewrite join_cons in Hj by discriminate. exact Hj.
    + eexists _, _. split; [reflexivity|exact Hhd].
  - split; [reflexivity|]. split; [discriminate|reflexivity].
Qed.

End Labels.

(** ** Rendering and the animation loop *)

Section Frames.
Context {T : Type} `{Number T}.
Variable cssColor : string -> bool.
Local Open Scope num_scope.

Lemma renderEdge_none (ns : list (node T)) (c : connection) :
  (forall j, from c = Some j \/ to c = Some j -> (j < length ns)%nat) ->
  renderEdge cssColor ns c = None <-> unpaintable cssColor ns c.
Proof.
  intros Hv. unfold renderEdge, unpaintable, dangling.
  destruct c as [[i|] [j|]]; simpl in *.
  - destruct (lookup_lt_is_Some_2 ns i) as [a Ha]; [apply Hv; left; reflexivity|].
    destruct (lookup_lt_is_Some_2 ns j) as [b Hb]; [apply Hv; right; reflexivity|].
    rewrite Ha. simpl. rewrite Hb. simpl.
    destruct (finiteNumber (x a)) eqn:Fxa; simpl.
    2:{ split; [|reflexivity]. intros _. right. exists a.
        split; [exists i; split; [left; reflexivity|exact Ha]|left; exact Fxa]. }
    destruct (finiteNumber (y a)) eqn:Fya; simpl.
    2:{ split; [|reflexivity]. intros _. right. exists a.
        split; [exists i; split; [left; reflexivity|exact Ha]|right; left; exact Fya]. }
    destruct (finiteNumber (x b)) eqn:Fxb; simpl.
    2:{ split; [|reflexivity]. intros _. right. exists b.
        split; [exists j; split; [right; reflexivity|exact Hb]|left; exact Fxb]. }
    destruct (finiteNumber (y b)) eqn:Fyb; simpl.
    2:{ split; [|reflexivity]. intros _. right. exists b.
        split; [exists j; split; [right; reflexivity|exact Hb]|right; left; exact Fyb]. }
    destruct (cssColor (gradientStop a)) eqn:Ca; simpl.
    2:{ split; [|reflexivity]. intros _. right. exists a.
        split; [exists i; split; [left; reflexivity|exact Ha]|right; right; exact Ca]. }
    destruct (cssColor (gradientStop b)) eqn:Cb; simpl.
    2:{ split; [|reflexivity]. intros _. right. exists b.
        split; [exists j; split; [right; reflexivity|exact Hb]|right; right; exact Cb]. }
    split; [discriminate|].
    intros [[Hd|Hd]|(n & (k & Hk & Hn) & Hbad)]; try discriminate.
    assert (Hab : n = a \/ n = b).
    { destruct Hk as [[= <-]|[= <-]]; [left|right]; congruence. }
    unfold badEnd in Hbad. destruct Hab as [->| ->]; intuition congruence.
  - destruct (ns !! i); simpl; split; auto.
  - split; auto.
  - split; auto.
Qed.

Lemma renderEdges_none (ns : list (node T)) (cs : list connection) :
  anchored ns cs ->
  renderEdges cssColor ns cs = None <-> exists c, c ∈ cs /\ unpaintable cssColor ns c.
Proof.
  induction cs as [|c cs IH]; intros Hv; simpl.
  - split; [discriminate|]. intros (c & Hc & _). inversion Hc.
  - assert (Hvc : forall j, from c = Some j \/ to c = Some j -> (j < length ns)%nat).
    { intros j Hj. apply (Hv c j); [left|exact Hj]. }
    assert (Hvs : anchored ns cs).
    { intros c' j Hc' Hj. apply (Hv c' j); [right; exact Hc'|exact Hj]. }
    pose proof (renderEdge_none ns c Hvc) as Hc.
    specialize (IH Hvs).
    destruct (renderEdge cssColor ns c) as [d|]; simpl.
    + destruct (renderEdges cssColor ns cs) as [ds|]; simpl.
      * split; [discriminate|]. intros (c' & Hin & Hd).
        apply elem_of_cons in Hin as [->|Hin].
        -- apply Hc in Hd. discriminate.
        -- assert (Hn : Some ds = None) by (apply IH; eauto).
           discriminate.
      * split; [|reflexivity]. intros _.
        destruct (proj1 IH eq_refl) as (c' & Hin & Hd).
        exists c'. split; [right; exact Hin|exact Hd].
    + split; [|reflexivity]. intros _. exists c. split; [left|].
      apply Hc. reflexivity.
Qed.

Lemma renderNode_none (st : ecosystem T) (i : nat) (n : node T) :
  renderNode st i n = None <-> negativeDisc st i n.
Proof.
  unfold renderNode, negativeDisc.
  destruct (finiteNumber (x n)); simpl; [|split; [discriminate|intros [? _]; discriminate]].
  destruct (finiteNumber (y n)); simpl; [|split; [discriminate|intros (_ & ? & _); discriminate]].
  destruct (finiteNumber (drawnRadius st i n)); simpl;
    [|split; [discriminate|intros (_ & _ & ? & _); discriminate]].
  destruct (drawnRadius st i n <? #0); simpl.
  - split; [intros _; repeat split|reflexivity].
  - split; [discriminate|intros (_ & _ & _ & ?); discriminate].
Qed.

Lemma renderNodes_none (st : ecosystem T) (ns : list (node T)) :
  forall i0, renderNodes st i0 ns = None <->
             exists k n, ns !! k = Some n /\ negativeDisc st (i0 + k) n.
Proof.
  induction ns as [|n ns IH]; intros i0; simpl.
  - split; [discriminate|]. intros (k & n & Hk & _). discriminate.
  - pose proof (renderNode_none st i0 n) as Hn. specialize (IH (S i0)).
    destruct (renderNode st i0 n) as [d|]; simpl.
    + destruct (renderNodes st (S i0) ns) as [ds|]; simpl.
      * split; [discriminate|]. intros (k & n' & Hk & Hneg).
        destruct k as [|k]; simpl in Hk.
        -- injection Hk as <-. replace (i0 + 0)%nat with i0 in Hneg by lia.
           apply Hn in Hneg. discriminate.
        -- assert (Hnone : Some ds = None).
           { apply IH. exists k, n'. split; [exact Hk|].
             replace (S i0 + k)%nat with (i0 + S k)%nat by lia. exact Hneg. }
           discriminate.
      * split; [|reflexivity]. intros _.
        destruct (proj1 IH eq_refl) as (k & n' & Hk & Hneg).
        exists (S k), n'. split; [exact Hk|].
        replace (i0 + S k)%nat with (S i0 + k)%nat by lia. exact Hneg.
    + split; [|reflexivity]. intros _. exists 0%nat, n. split; [reflexivity|].
      replace (i0 + 0)%nat with i0 by lia. apply Hn. reflexivity.
Qed.

Lemma render_none (st : ecosystem T) :
  anchored (nodes st) (connections st) ->
  render cssColor st = None <->
  (exists c, c ∈ connections st /\ unpaintable cssColor (nodes st) c) \/
  (exists i n, nodes st !! i = Some n /\ negativeDisc st i n).
Proof.
  intros Hv. unfold render.
  pose proof (renderEdges_none (nodes st) (connections st) Hv) as He.
  pose proof (renderNodes_none st (nodes st) 0) as Hn. simpl in Hn.
  destruct (renderEdges cssColor (nodes st) (connections st)); simpl.
  - destruct (renderNodes st 0 (nodes st)); simpl.
    + split; [discriminate|]. intros [Hc|Hc]; [apply He in Hc|apply Hn in Hc]; discriminate.
    + split; [|reflexivity]. intros _. right. apply Hn. reflexivity.
  - split; [|reflexivity]. intros _. left. apply He. reflexivity.
Qed.

Lemma render_dangling (st : ecosystem T) :
  anchored (nodes st) (connections st) ->
  (exists c, c ∈ connections st /\ dangling c) ->
  render cssColor st = None.
Proof.
  intros Hv (c & Hc & Hd). apply (render_none st Hv). left.
  exists c. split; [exact Hc|left; exact Hd].
Qed.

(** [render] throws exactly when an edge cannot be painted (an endpoint is
    missing, has a coordinate that is NaN or infinite, or a gradient colour
    that does not parse) or a node is to be drawn at a finite position with a
    negative radius. *)
Theorem render_throws (st : ecosystem T) :
  anchored (nodes st) (connections st) ->
  render cssColor st = None <->
  (exists c, c ∈ connections st /\ unpaintable cssColor (nodes st) c) \/
  (exists i n, nodes st !! i = Some n /\ negativeDisc st i n).
Proof. intros Hv. split; intros Hr; apply (render_none st Hv); exact Hr. Qed.

End Frames.

Section Loops.
Context {T : Type} `{Number T}.
Variable cssColor : string -> bool.
Local Open Scope num_scope.

Lemma cancel_tidy (lp : loop T) (h : nat) :
  tidy lp -> animationId lp = Some h -> scheduled (cancelFrame lp h) = [].
Proof.
  intros [Hs|(h' & Hs & Hid)] Hh; simpl; rewrite Hs; [reflexivity|].
  rewrite Hid in Hh. injection Hh as ->. simpl.
  rewrite Nat.eqb_refl. reflexivity.
Qed.

Lemma startAnimation_one (lp : loop T) :
  tidy lp ->
  exists h, scheduled (startAnimation lp) = [h] /\
            animationId (startAnimation lp) = Some h /\
            eco (startAnimation lp) = eco lp.
Proof.
  intros Ht. unfold startAnimation. destruct (animationId lp) as [h|] eqn:Hid.
  - exists (nextHandle lp). simpl.
    pose proof (cancel_tidy lp h Ht Hid) as Hc. simpl in Hc. rewrite Hc.
    repeat split; reflexivity.
  - exists (nextHandle lp). simpl. destruct Ht as [Hs|(h & _ & Hh)]; [|congruence].
    rewrite Hs. repeat split; reflexivity.
Qed.

Lemma destroy_none (lp : loop T) :
  tidy lp -> scheduled (destroy lp) = [] /\ eco (destroy lp) = eco lp.
Proof.
  intros Ht. unfold destroy. destruct (animationId lp) as [h|] eqn:Hid.
  - split; [apply (cancel_tidy lp h Ht Hid)|reflexivity].
  - destruct Ht as [Hs|(h & _ & Hh)]; [|congruence]. split; [exact Hs|reflexivity].
Qed.

Lemma tick_tidy (lp : loop T) (ts : T) : tidy lp -> tidy (tick cssColor lp ts).
Proof.
  intros Ht. unfold tick. destruct (scheduled lp) as [|h rest] eqn:Hs; [exact Ht|].
  destruct Ht as [Hn|(h' & Hs' & Hid)]; [congruence|].
  rewrite Hs in Hs'. injection Hs' as -> ->.
  unfold animate. simpl. rewrite Nat.eqb_refl. simpl.
  destruct (render cssColor (updatePhysics (eco lp))).
  - right. exists (nextHandle lp). split; reflexivity.
  - left. reflexivity.
Qed.

Lemma loopStep_tidy (lp : loop T) (ev : loopEvent T) : tidy lp -> tidy (loopStep cssColor lp ev).
Proof.
  intros Ht. destruct ev as [|ts|]; simpl.
  - destruct (startAnimation_one lp Ht) as (h & Hs & Hid & _). right. eauto.
  - apply tick_tidy. exact Ht.
  - left. apply (destroy_none lp Ht).
Qed.

Lemma runLoop_tidy (lp : loop T) (evs : list (loopEvent T)) :
  tidy lp -> tidy (runLoop cssColor lp evs).
Proof.
  unfold runLoop. revert lp. induction evs as [|ev evs IH]; intros lp Ht; simpl.
  - exact Ht.
  - apply IH. apply loopStep_tidy. exact Ht.
Qed.

Lemma newLoop_tidy (st : ecosystem T) : tidy (newLoop st).
Proof. right. exists 1%nat. split; reflexivity. Qed.

Lemma ticks_idle (lp : loop T) (tss : list T) :
  scheduled lp = [] -> runLoop cssColor lp (map Tick tss) = lp.
Proof.
  intros Hs. unfold runLoop. induction tss as [|ts tss IH]; simpl; [reflexivity|].
  unfold tick. rewrite Hs. exact IH.
Qed.

(** The loop never doubles: after any sequence of starts, frames and
    destroys there is at most one frame callback pending; a (re)start leaves
    exactly one, and after a destroy there is none, so that no later frame
    changes anything. *)
Theorem loop_never_doubles (st : ecosystem T) (evs : list (loopEvent T)) :
  let lp := runLoop cssColor (newLoop st) evs in
  (length (scheduled lp) <= 1)%nat /\
  length (scheduled (startAnimation lp)) = 1%nat /\
  scheduled (destroy lp) = [] /\
  forall tss, runLoop cssColor (destroy lp) (map Tick tss) = destroy lp.
Proof.
  cbv zeta.
  pose proof (runLoop_tidy (newLoop st) evs (newLoop_tidy st)) as Ht.
  split; [|split; [|split]].
  - destruct Ht as [Hs|(h & Hs & _)]; rewrite Hs; simpl; lia.
  - destruct (startAnimation_one _ Ht) as (h & Hs & _). rewrite Hs. reflexivity.
  - apply (destroy_none _ Ht).
  - intros tss. apply ticks_idle. apply (destroy_none _ Ht).
Qed.

Lemma step_anchored (st : ecosystem T) :
  anchored (nodes st) (connections st) ->
  anchored (nodes (updatePhysics st)) (connections (updatePhysics st)).
Proof.
  intros Hv c j Hc Hj. simpl. rewrite sweep_length. apply (Hv c j Hc Hj).
Qed.

Lemma frames_anchored (st : ecosystem T) (k : nat) :
  anchored (nodes st) (connections st) ->
  anchored (nodes (frames k st)) (connections (frames k st)) /\
  connections (frames k st) = connections st.
Proof.
  intros Hv. induction k as [|k [IH1 IH2]]; simpl; [split; [exact Hv|reflexivity]|].
  split; [|exact IH2].
  intros c j Hc Hj. rewrite sweep_length. apply (IH1 c j Hc Hj).
Qed.

Lemma loop_alive (st : ecosystem T) (tss : list T) :
  (forall j, (1 <= j <= length tss)%nat -> is_Some (render cssColor (frames j st))) ->
  exists h, scheduled (runLoop cssColor (newLoop st) (map Tick tss)) = [h] /\
            eco (runLoop cssColor (newLoop st) (map Tick tss)) = frames (length tss) st.
Proof.
  induction tss as [|ts tss IH] using rev_ind; intros Hok.
  - exists 1%nat. split; reflexivity.
  - destruct IH as (h & Hs & Heco).
    { intros j Hj. apply Hok. rewrite length_app. simpl. lia. }
    unfold runLoop in *. rewrite map_app, fold_left_app. simpl.
    rewrite length_app. simpl. replace (length tss + 1)%nat with (S (length tss)) by lia.
    destruct (Hok (S (length tss))) as [ds Hr]; [rewrite length_app; simpl; lia|].
    simpl in Hr.
    unfold tick. rewrite Hs. unfold animate. simpl. rewrite Heco, Hr. simpl.
    rewrite Nat.eqb_refl. eexists. split; reflexivity.
Qed.

(** The loop applies one physics step per frame callback for as long as
    [render] does not throw.  If the first [k] frames render and the callbacks
    stop there, the state is [k] steps from the initial one and the next
    callback is pending; if the frame after them throws, the state stays
    [k + 1] steps from the initial one and nothing is pending, however many
    callbacks follow. *)
Theorem loop_steps_once_per_frame (st : ecosystem T) (tss : list T) (k : nat) :
  (k <= length tss)%nat ->
  (forall j, (1 <= j <= k)%nat -> is_Some (render cssColor (frames j st))) ->
  ((k < length tss)%nat -> render cssColor (frames (S k) st) = None) ->
  let lp := runLoop cssColor (newLoop st) (map Tick tss) in
  eco lp = frames (if decide (k < length tss)%nat then S k else k) st /\
  length (scheduled lp) = (if decide (k < length tss)%nat then 0 else 1)%nat.
Proof.
  intros Hk Hok Hbad. cbv zeta.
  destruct (decide (k < length tss)%nat) as [Hlt|Hge].
  - specialize (Hbad Hlt).
    rewrite <- (take_drop k tss).
    destruct (drop k tss) as [|ts rest] eqn:Hd.
    { apply (f_equal length) in Hd. rewrite length_drop in Hd. simpl in Hd. lia. }
    assert (Hlen : length (take k tss) = k) by (rewrite length_take; lia).
    destruct (loop_alive st (take k tss)) as (h & Hs & Heco).
    { rewrite Hlen. exact Hok. }
    rewrite Hlen in Heco.
    unfold runLoop in *. rewrite map_app, fold_left_app. simpl.
    set (lp0 := fold_left (loopStep cssColor) (map Tick (take k tss)) (newLoop st)) in *.
    assert (Ht : scheduled (tick cssColor lp0 ts) = [] /\
                 eco (tick cssColor lp0 ts) = frames (S k) st).
    { unfold tick. rewrite Hs. unfold animate. simpl. rewrite Heco.
      simpl in Hbad. rewrite Hbad. simpl. rewrite Nat.eqb_refl. split; reflexivity. }
    destruct Ht as [Ht1 Ht2].
    pose proof (ticks_idle (tick cssColor lp0 ts) rest Ht1) as Hi.
    unfold runLoop in Hi. rewrite Hi, Ht1, Ht2. split; reflexivity.
  - assert (Hkk : k = length tss) by lia. subst k.
    destruct (loop_alive st tss Hok) as (h & Hs & Heco).
    rewrite Hs, Heco. split; reflexivity.
Qed.

(** With an edge left dangling the first frame applies its physics step,
    [render] throws, and the loop is dead: no frame callback is pending and
    no later frame changes the state. *)
Theorem dangling_edge_stops_loop (st : ecosystem T) (ts : T) (tss : list T) :
  anchored (nodes st) (connections st) ->
  (exists c, c ∈ connections st /\ dangling c) ->
  let lp := runLoop cssColor (newLoop st) (Tick ts :: map Tick tss) in
  eco lp = updatePhysics st /\ scheduled lp = [].
Proof.
  intros Hv Hbad. cbv zeta. unfold runLoop. simpl fold_left.
  assert (Hr : render cssColor (updatePhysics st) = None).
  { apply render_dangling; [apply step_anchored; exact Hv|exact Hbad]. }
  assert (Ht : tick cssColor (newLoop st) ts =
               Loop (updatePhysics st) (Some 1%nat) ts (#1000 / (ts - #0)) [] 2).
  { unfold tick, newLoop, animate. simpl. rewrite Hr. reflexivity. }
  rewrite Ht.
  pose proof (ticks_idle (Loop (updatePhysics st) (Some 1%nat) ts (#1000 / (ts - #0)) [] 2)
                tss eq_refl) as Hi.
  unfold runLoop in Hi. rewrite Hi. split; reflexivity.
Qed.


End Loops.

(** ** The first frame, on doubles *)

Section FirstFrame.
Variable cssColor : string -> bool.
Local Open Scope num_scope.



End FirstFrame.

(** * Further properties of the CV form tool *)

Module CvUpdates.
Import CvTool CvToolFacts.

Lemma setVal_none (doc : gmap string element) (i o : string) (d : option jsstring) :
  setVal doc i o d = None <-> doc !! i = None \/ doc !! o = None.
Proof.
  unfold setVal. destruct (doc !! i) as [inEl|]; simpl; [|split; auto].
  destruct (doc !! o) as [outEl|]; simpl; [|split; auto].
  destruct (decide (trim (value inEl) <> [])); split;
    try discriminate; intros [Hc|Hc]; discriminate.
Qed.

Lemma setVal_domain (doc doc' : gmap string element) (i o : string)
    (d : option jsstring) (k : string) :
  setVal doc i o d = Some doc' -> doc' !! k = None <-> doc !! k = None.
Proof.
  intros Hs. destruct (setVal_frame _ _ _ _ _ Hs) as [_ Hv]. specialize (Hv k).
  destruct (doc' !! k), (doc !! k); simpl in Hv; split; congruence.
Qed.

Lemma setVals_none (fields : list (string * string * jsstring)) :
  forall doc : gmap string element,
    setVals fields doc = None <->
    exists f, f ∈ fields /\ (doc !! fst (fst f) = None \/ doc !! snd (fst f) = None).
Proof.
  induction fields as [|[[i o] d] fields IH]; intros doc; simpl.
  - split; [discriminate|]. intros (f & Hf & _). inversion Hf.
  - destruct (setVal doc i o (Some d)) as [doc1|] eqn:Hs; simpl.
    + rewrite IH. split.
      * intros (f & Hf & Hm). exists f. split; [right; exact Hf|].
        destruct Hm as [Hm|Hm]; [left|right];
          apply (setVal_domain _ _ _ _ _ _ Hs); exact Hm.
      * intros (f & Hf & Hm). apply elem_of_cons in Hf as [->|Hf].
        -- simpl in Hm. apply (proj2 (setVal_none doc i o (Some d))) in Hm. congruence.
        -- exists f. split; [exact Hf|].
           destruct Hm as [Hm|Hm]; [left|right];
             apply (setVal_domain _ _ _ _ _ _ Hs); exact Hm.
    + split; [|reflexivity]. intros _. exists (i, o, d). split; [left|].
      simpl. apply (setVal_none doc i o (Some d)). exact Hs.
Qed.

(** [updateCV] throws exactly when the page lacks one of the input or output
    fields of its table. *)
Theorem updateCV_throws (doc : gmap string element) :
  updateCV doc = None <->
  exists f, f ∈ cvFields /\ (doc !! fst (fst f) = None \/ doc !! snd (fst f) = None).
Proof. apply setVals_none. Qed.

Lemma setVals_frame (fields : list (string * string * jsstring)) :
  forall doc doc' : gmap string element,
    setVals fields doc = Some doc' ->
    (forall k, value <$> doc' !! k = value <$> doc !! k) /\
    (forall k, k ∉ map (fun f => snd (fst f)) fields -> doc' !! k = doc !! k).
Proof.
  induction fields as [|[[i o] d] fields IH]; intros doc doc'; simpl.
  - intros [= <-]. split; reflexivity.
  - destruct (setVal doc i o (Some d)) as [doc1|] eqn:Hs; simpl; [|discriminate].
    intros Hr. destruct (IH doc1 doc' Hr) as [Hv Hk].
    destruct (setVal_frame _ _ _ _ _ Hs) as [Hk1 Hv1].
    split.
    + intros k. rewrite Hv, Hv1. reflexivity.
    + intros k Hn. apply not_elem_of_cons in Hn as [Hn0 Hn].
      rewrite (Hk k Hn). apply Hk1. exact Hn0.
Qed.

(** An update never edits what the user typed and never touches an element
    that is not one of its output fields. *)
Theorem updateCV_frame (doc doc' : gmap string element) :
  updateCV doc = Some doc' ->
  (forall k, value <$> doc' !! k = value <$> doc !! k) /\
  (forall k, k ∉ map (fun f => snd (fst f)) cvFields -> doc' !! k = doc !! k).
Proof. apply setVals_frame. Qed.

Lemma setVal_fixed (doc : gmap string element) (i o : string) (d : jsstring) :
  upToDate doc (i, o, d) -> setVal doc i o (Some d) = Some doc.
Proof.
  intros (inEl & outEl & Hi & Ho & Ht & Hb). simpl in *.
  unfold setVal. rewrite Hi. simpl. rewrite Ho. simpl. unfold shown in Ht.
  destruct (decide (trim (value inEl) <> [])) as [Hne|He]; f_equal; apply insert_id;
    rewrite Ho; f_equal; destruct outEl as [v t dsp]; simpl in *.
  - destruct (forallb isWhiteSpace (value inEl)) eqn:Hw.
    + exfalso. apply Hne. apply trim_nil. exact Hw.
    + rewrite Ht, (Hb Hne). reflexivity.
  - assert (Hw : forallb isWhiteSpace (value inEl) = true).
    { apply trim_nil. destruct (trim (value inEl)); [reflexivity|].
      exfalso. apply He. discriminate. }
    rewrite Hw in Ht. rewrite Ht. reflexivity.
Qed.

Lemma setVal_upToDate (doc doc1 : gmap string element) (i o : string) (d : jsstring) :
  setVal doc i o (Some d) = Some doc1 -> upToDate doc1 (i, o, d).
Proof.
  intros Hs. destruct (setVal_frame _ _ _ _ _ Hs) as [_ Hv].
  unfold setVal in Hs. destruct (doc !! i) as [inEl|] eqn:Hi; [|discriminate].
  simpl in Hs. destruct (doc !! o) as [outEl|] eqn:Ho; [|discriminate]. simpl in Hs.
  pose proof (Hv i) as Hvi. rewrite Hi in Hvi. simpl in Hvi.
  destruct (doc1 !! i) as [inEl1|] eqn:Hi1; [|discriminate].
  injection Hvi as Hvi. unfold upToDate. simpl.
  destruct (decide (trim (value inEl) <> [])) as [Hne|He]; injection Hs as <-.
  - eexists inEl1, _. split; [exact Hi1|]. split; [apply lookup_insert_eq|].
    simpl. rewrite Hvi. unfold shown.
    destruct (forallb isWhiteSpace (value inEl)) eqn:Hw; [|split; reflexivity].
    exfalso. apply Hne. apply trim_nil. exact Hw.
  - eexists inEl1, _. split; [exact Hi1|]. split; [apply lookup_insert_eq|].
    simpl. rewrite Hvi. unfold shown.
    assert (Hw : forallb isWhiteSpace (value inEl) = true).
    { apply trim_nil. destruct (trim (value inEl)); [reflexivity|].
      exfalso. apply He. discriminate. }
    rewrite Hw. split; [reflexivity|]. intros Hne. contradiction.
Qed.

Lemma upToDate_kept (doc doc1 : gmap string element) (f : string * string * jsstring)
    (i' o' : string) (d' : option jsstring) :
  upToDate doc f -> setVal doc i' o' d' = Some doc1 -> o' <> snd (fst f) ->
  upToDate doc1 f.
Proof.
  intros (inEl & outEl & Hi & Ho & Ht & Hb) Hs Hne.
  destruct (setVal_frame _ _ _ _ _ Hs) as [Hk Hv].
  pose proof (Hv (fst (fst f))) as Hvi. rewrite Hi in Hvi. simpl in Hvi.
  destruct (doc1 !! fst (fst f)) as [inEl1|] eqn:Hi1; [|discriminate].
  injection Hvi as Hvi.
  exists inEl1, outEl. split; [exact Hi1|].
  split; [rewrite Hk by congruence; exact Ho|].
  rewrite Hvi. split; [exact Ht|exact Hb].
Qed.

Lemma upToDate_through (fields : list (string * string * jsstring))
    (f : string * string * jsstring) :
  snd (fst f) ∉ map (fun g => snd (fst g)) fields ->
  forall doc doc' : gmap string element,
    upToDate doc f -> setVals fields doc = Some doc' -> upToDate doc' f.
Proof.
  induction fields as [|[[i o] d] fields IH]; intros Hn doc doc' Hu; simpl.
  - intros [= <-]. exact Hu.
  - simpl in Hn. apply not_elem_of_cons in Hn as [Hn0 Hn].
    destruct (setVal doc i o (Some d)) as [doc1|] eqn:Hs; simpl; [|discriminate].
    apply (IH Hn doc1 doc').
    apply (upToDate_kept doc doc1 f i o (Some d) Hu Hs). congruence.
Qed.

Lemma setVals_upToDate (fields : list (string * string * jsstring)) :
  NoDup (map (fun f => snd (fst f)) fields) ->
  forall doc doc' : gmap string element,
    setVals fields doc = Some doc' -> forall f, f ∈ fields -> upToDate doc' f.
Proof.
  induction fields as [|[[i o] d] fields IH]; intros Hnd doc doc' Hr f Hf.
  - inversion Hf.
  - simpl in Hnd. apply NoDup_cons in Hnd as [Hnew Hnd]. simpl in Hr.
    destruct (setVal doc i o (Some d)) as [doc1|] eqn:Hs; simpl in Hr; [|discriminate].
    apply elem_of_cons in Hf as [->|Hf].
    + apply (upToDate_through fields (i, o, d) Hnew doc1 doc'); [|exact Hr].
      apply (setVal_upToDate doc doc1 i o d Hs).
    + apply (IH Hnd doc1 doc' Hr f Hf).
Qed.

Lemma setVals_fixed (fields : list (string * string * jsstring)) (doc : gmap string element) :
  (forall f, f ∈ fields -> upToDate doc f) -> setVals fields doc = Some doc.
Proof.
  induction fields as [|[[i o] d] fields IH]; intros Hu; simpl; [reflexivity|].
  rewrite (setVal_fixed doc i o d) by (apply Hu; left). simpl.
  apply IH. intros f Hf. apply Hu. right. exact Hf.
Qed.

(** Updating twice is updating once: a second [updateCV] with the inputs
    unchanged succeeds and changes nothing. *)
Theorem updateCV_idempotent (doc doc' : gmap string element) :
  updateCV doc = Some doc' -> updateCV doc' = Some doc'.
Proof.
  intros Hr. apply setVals_fixed.
  apply (setVals_upToDate cvFields cvFields_outputs_distinct doc doc' Hr).
Qed.

(** On a page that has every field of the table a whole [updateCV] succeeds,
    and each output field then shows its input's value, or its default text
    when the input is empty or blank. *)
Theorem updateCV_shows_inputs (doc : gmap string element) :
  (forall i o d, (i, o, d) ∈ cvFields -> is_Some (doc !! i) /\ is_Some (doc !! o)) ->
  length cvFields = 18%nat /\
  exists doc',
    updateCV doc = Some doc' /\
    forall i o d inEl, (i, o, d) ∈ cvFields -> doc !! i = Some inEl ->
      innerText <$> doc' !! o = Some (shown (value inEl) d).
Proof.
  intros Hdom. split; [reflexivity|].
  destruct (setVals_outputs cvFields cvFields_outputs_distinct doc Hdom)
    as (doc' & Hrun & _ & _ & Hall).
  exists doc'. split; [exact Hrun|exact Hall].
Qed.

End CvUpdates.

(** ** NaN spreads along edges *)

Section Spreading.
Local Open Scope num_scope.

Lemma nan_div (a b : float) :
  PrimFloat.is_nan a = true \/ PrimFloat.is_nan b = true ->
  PrimFloat.is_nan (a / b) = true.
Proof.
  intros Hab. apply is_nan_true. simpl. rewrite div_spec. unfold SF64div.
  destruct Hab as [Hn|Hn]; apply is_nan_true in Hn; rewrite Hn;
    [|destruct (Prim2SF a)]; reflexivity.
Qed.

(** A lost node exerts no repulsion: its distance to any node is NaN, which
    is not below the cutoff. *)
Theorem lost_node_repels_nothing (st : ecosystem float) (a b : node float)
    (f : float * float) :
  lost b -> repel st a b f = f.
Proof.
  intros Hb. unfold repel.
  rewrite nan_ltb; [reflexivity|]. left. apply nan_sqrt. apply nan_add.
  destruct Hb as [Hx|Hy]; [left|right]; apply nan_mul; left; apply nan_sub;
    right; assumption.
Qed.

Lemma spring_keeps_nan (st : ecosystem float) (ns : list (node float)) (i : nat)
    (a : node float) (f : float * float) (conn : connection) :
  PrimFloat.is_nan (fst f) = true -> PrimFloat.is_nan (snd f) = true ->
  PrimFloat.is_nan (fst (spring st ns i a f conn)) = true /\
  PrimFloat.is_nan (snd (spring st ns i a f conn)) = true.
Proof.
  intros Hx Hy. unfold spring.
  destruct (if decide (from conn = Some i) then _ else _) as [other sign].
  destruct (other ≫= _); simpl; [|split; assumption].
  split; apply nan_add; left; assumption.
Qed.

Lemma springs_keep_nan (st : ecosystem float) (ns : list (node float)) (i : nat)
    (a : node float) (cs : list connection) :
  forall f,
    PrimFloat.is_nan (fst f) = true -> PrimFloat.is_nan (snd f) = true ->
    PrimFloat.is_nan (fst (fold_left (spring st ns i a) cs f)) = true /\
    PrimFloat.is_nan (snd (fold_left (spring st ns i a) cs f)) = true.
Proof.
  induction cs as [|c cs IH]; intros f Hx Hy; simpl; [split; assumption|].
  destruct (spring_keeps_nan st ns i a f c Hx Hy) as [Hx' Hy']. apply IH; assumption.
Qed.

Lemma spring_catches_nan (st : ecosystem float) (ns : list (node float)) (i j : nat)
    (a o : node float) (f : float * float) (conn : connection) :
  i <> j ->
  (from conn = Some i /\ to conn = Some j) \/ (from conn = Some j /\ to conn = Some i) ->
  ns !! j = Some o -> lost o ->
  PrimFloat.is_nan (fst (spring st ns i a f conn)) = true /\
  PrimFloat.is_nan (snd (spring st ns i a f conn)) = true.
Proof.
  intros Hij Hc Ho Hl.
  assert (Hd : PrimFloat.is_nan
                 (nsqrt ((x o - x a) * (x o - x a) + (y o - y a) * (y o - y a))) = true).
  { apply nan_sqrt. apply nan_add.
    destruct Hl as [Hx|Hy]; [left|right]; apply nan_mul; left; apply nan_sub;
      left; assumption. }
  assert (Hs : spring st ns i a f conn =
               accumulate f (springTerm st a o
                               (if decide (from conn = Some i) then #1 else #(-1)))).
  { destruct Hc as [[Hf Ht]|[Hf Ht]].
    - rewrite decide_True by exact Hf.
      apply (spring_from_end st ns i j a o f conn Hf Ht Ho).
    - assert (Hne : from conn <> Some i) by congruence.
      rewrite decide_False by exact Hne.
      apply (spring_to_end st ns i j a o f conn Hne Ht Hf Ho). }
  rewrite Hs. unfold accumulate, springTerm. cbv zeta. cbn [fst snd].
  split; apply nan_add; right; apply nan_mul; left; apply nan_mul; left;
    apply nan_div; right; exact Hd.
Qed.

Lemma springs_catch_nan (st : ecosystem float) (ns : list (node float)) (i j : nat)
    (a o : node float) (cs : list connection) (conn : connection) :
  i <> j ->
  (from conn = Some i /\ to conn = Some j) \/ (from conn = Some j /\ to conn = Some i) ->
  ns !! j = Some o -> lost o -> conn ∈ cs ->
  forall f,
    PrimFloat.is_nan (fst (fold_left (spring st ns i a) cs f)) = true /\
    PrimFloat.is_nan (snd (fold_left (spring st ns i a) cs f)) = true.
Proof.
  intros Hij Hc Ho Hl. induction cs as [|c cs IH]; intros Hin f; [inversion Hin|].
  simpl. apply elem_of_cons in Hin as [<-|Hin].
  - destruct (spring_catches_nan st ns i j a o f conn Hij Hc Ho Hl) as [Hx Hy].
    apply springs_keep_nan; assumption.
  - apply IH. exact Hin.
Qed.

Lemma stepNode_keeps_lost (st : ecosystem float) (ns : list (node float)) (k j : nat)
    (b : node float) :
  ns !! j = Some b -> lost b ->
  exists b', stepNode st ns k !! j = Some b' /\ lost b'.
Proof.
  intros Hb Hl. destruct (decide (k = j)) as [->|Hne].
  - unfold stepNode. rewrite Hb. destruct (decide _); [eauto|].
    eexists. split; [apply list_lookup_insert_eq; apply lookup_lt_Some in Hb; exact Hb|].
    destruct (stepped_nan st b (force st ns j b)) as [Hx Hy].
    destruct Hl as [Hl|Hl]; [left; apply Hx|right; apply Hy]; exact Hl.
  - rewrite stepNode_other by exact Hne. eauto.
Qed.

Lemma sweep_keeps_lost (st : ecosystem float) (idx : list nat) (j : nat) :
  forall (ns : list (node float)) (b : node float),
    ns !! j = Some b -> lost b ->
    exists b', fold_left (stepNode st) idx ns !! j = Some b' /\ lost b'.
Proof.
  induction idx as [|k idx IH]; intros ns b Hb Hl; simpl; [eauto|].
  destruct (stepNode_keeps_lost st ns k j b Hb Hl) as (b1 & Hb1 & Hl1).
  apply (IH _ b1 Hb1 Hl1).
Qed.

(** The array when the loop reaches index [i] is the sweep of the indices
    before it, and later turns leave node [i] alone. *)
Lemma sweep_turn (st : ecosystem float) (ns : list (node float)) (i : nat) :
  forall k, (i < k)%nat ->
    fold_left (stepNode st) (seq 0 k) ns !! i =
    stepNode st (fold_left (stepNode st) (seq 0 i) ns) i !! i.
Proof.
  induction k as [|k IH]; intros Hk; [lia|].
  rewrite seq_S, fold_left_app. simpl.
  destruct (decide (i = k)) as [->|Hne]; [reflexivity|].
  rewrite stepNode_other by congruence. apply IH. lia.
Qed.

(** NaN spreads along edges: a non-dragged node joined by an edge to a lost
    node is itself lost, in both coordinates, after one physics step. *)
Theorem nan_spreads_along_edges (st : ecosystem float) (i j : nat)
    (a b : node float) (conn : connection) :
  nodes st !! i = Some a -> nodes st !! j = Some b ->
  i <> j -> draggedNode st <> Some i -> lost b ->
  conn ∈ connections st ->
  (from conn = Some i /\ to conn = Some j) \/ (from conn = Some j /\ to conn = Some i) ->
  exists a', nodes (updatePhysics st) !! i = Some a' /\
    PrimFloat.is_nan (x a') = true /\ PrimFloat.is_nan (y a') = true.
Proof.
  intros Ha Hb Hij Hd Hl Hin Hc. simpl.
  rewrite (sweep_turn st (nodes st) i (length (nodes st)))
    by (apply lookup_lt_Some in Ha; exact Ha).
  set (ns := fold_left (stepNode st) (seq 0 i) (nodes st)).
  assert (Hai : ns !! i = Some a).
  { unfold ns. rewrite sweep_untouched by lia. exact Ha. }
  destruct (sweep_keeps_lost st (seq 0 i) j (nodes st) b Hb Hl) as (o & Ho & Hlo).
  fold ns in Ho.
  unfold stepNode. rewrite Hai. rewrite decide_False by exact Hd.
  eexists. split; [apply list_lookup_insert_eq; apply lookup_lt_Some in Hai; exact Hai|].
  destruct (springs_catch_nan st ns i j a o (connections st) conn Hij Hc Ho Hlo Hin
              (repulsionLoop st a i 0 ns (#0, #0))) as [Hx Hy].
  unfold boundary, integrate, force. cbn [x y vx vy radius fst snd].
  split; rewrite clamp_nan; apply nan_add; right; apply nan_mul; left;
    apply nan_add; right; apply nan_add; left; assumption.
Qed.

End Spreading.

(** * Rounding of doubles, in real numbers

    The operations of [SpecFloat], to which the kernel's primitive floats are
    specified to be equal, round to nearest: the lemmas below derive from
    their definitions the error bound and the order properties that the
    analysis of the centre pull needs. *)


Section Rounding.

Local Open Scope Z_scope.





Local Open Scope Z_scope.





Local Open Scope R_scope.

Lemma bpow_pos (e : Z) : 0 < bpow e.
Proof. apply powerRZ_lt. lra. Qed.

Lemma bpow_add (a b : Z) : bpow (a + b) = bpow a * bpow b.
Proof. apply powerRZ_add. lra. Qed.

Lemma bpow_IZR (e : Z) : (0 <= e)%Z -> bpow e = IZR (2 ^ e).
Proof.
  intros He. unfold bpow. rewrite <- (Z2Nat.id e He).
  rewrite <- pow_powerRZ, <- pow_IZR. reflexivity.
Qed.


Lemma bpow_lt (a b : Z) : (a < b)%Z -> bpow a < bpow b.
Proof.
  intros Hab. replace b with (a + (b - a))%Z by lia. rewrite bpow_add.
  rewrite (bpow_IZR (b - a)) by lia.
  assert (2 <= IZR (2 ^ (b - a))).
  { apply IZR_le. replace (b - a)%Z with (Z.succ (b - a - 1)) by lia.
    rewrite Z.pow_succ_r by lia.
    assert (0 < 2 ^ (b - a - 1))%Z by (apply Z.pow_pos_nonneg; lia). lia. }
  pose proof (bpow_pos a). nra.
Qed.




Local Open Scope R_scope.





Local Open Scope R_scope.







Local Open Scope R_scope.







End Rounding.

(** * The centre pull alone, on doubles *)

Section CentrePull.
Local Open Scope R_scope.

(** ** The operations of the source, rounded *)

Lemma finite_SF (v : float) : finite v = SFfinite (Prim2SF v).
Proof. reflexivity. Qed.





Lemma finite_zero (v : float) (s : bool) :
  Prim2SF v = S754_zero s -> finite v = true /\ B2R v = 0.
Proof. intros Hv. unfold finite, B2R. rewrite Hv. split; reflexivity. Qed.






(** ** The grid of the doubles, and two constants *)

Lemma bpow_neg (n : Z) : (0 <= n)%Z -> bpow (- n) = / IZR (2 ^ n).
Proof.
  intros Hn. rewrite <- (bpow_IZR n Hn).
  pose proof (bpow_pos n) as Hp.
  apply Rmult_eq_reg_r with (bpow n); [|lra].
  rewrite <- bpow_add. replace (- n + n)%Z with 0%Z by lia.
  rewrite Rinv_l by lra. reflexivity.
Qed.

Lemma bpow_neg_pos (p : positive) : bpow (Zneg p) = / IZR (2 ^ Zpos p).
Proof. apply (bpow_neg (Zpos p)). lia. Qed.







(** ** One axis between the walls

    The coordinate [x] is on one side of the centre [c], the velocity [v]
    points to the centre and is at most [alpha] times the offset.  The step
    computes [e = c - x], [p = e * k], [v1 = (v + (z + p)) * 0.85] and
    [x1 = x + v1], each rounded.  The new velocity is at most
    [0.85 * (alpha + k)] times the offset, up to rounding, and the rounding
    of [x1] moves it by no more than [v1] since [x] is a double itself; so
    the new offset is at least the old one less twice [v1], which keeps the
    coordinate on its side and the motion calm when [k] is at most 0.0035. *)



(** ** Accumulators that stay zero *)





(** ** One axis with its walls *)





(** ** The start *)






(** ** The whole array, frame after frame *)




Section Pull.

Variable st : ecosystem float.
Hypothesis Hconn : connections st = [].
Hypothesis Hrep : repulsionStrength st = lit 0 1.
Hypothesis Hfr : friction st = lit 85 100.
Hypothesis Hk0 : PrimFloat.ltb (lit 0 1) (centerAttraction st) = true.
Hypothesis Hk1 : PrimFloat.leb (centerAttraction st) (lit 35 10000) = true.








End Pull.

End CentrePull.

(** ** Runs of the centre pull *)

Section PullRuns.
Local Open Scope num_scope.

Lemma B2R_finite (v : float) (s : bool) (m : positive) (e : Z) :
  Prim2SF v = S754_finite s m e ->
  B2R v = (if s then - (IZR (Zpos m) * bpow e) else IZR (Zpos m) * bpow e)%R.
Proof. intros Hv. unfold B2R. rewrite Hv. reflexivity. Qed.

Ltac real_value v :=
  let sf := eval vm_compute in (Prim2SF v) in
  let E := fresh "E" in
  assert (E : Prim2SF v = sf) by (vm_compute; reflexivity);
  rewrite (B2R_finite v _ _ _ E); clear E.

Ltac real_numerals :=
  repeat match goal with
  | |- context [bpow (Zneg ?p)] =>
      rewrite (bpow_neg_pos p);
      let z := eval vm_compute in (2 ^ Zpos p)%Z in change (2 ^ Zpos p)%Z with z
  end;
  cbv iota.

Lemma frames_fixed (st : ecosystem float) (N : nat) :
  updatePhysics (frames N st) = frames N st ->
  forall k, frames (N + k) st = frames N st.
Proof.
  intros Hfix. induction k as [|k IH].
  - rewrite Nat.add_0_r. reflexivity.
  - rewrite Nat.add_succ_r. simpl. rewrite IH. exact Hfix.
Qed.



(** The nodes of [gentlePull] do not reach the centre: after 2852 steps the
    state repeats itself, with node 1 left of the centre and above it. *)
Lemma centre_pull_stalls :
  let st := gentlePull in
  let n := nodeAfter 2852 1 st in
  (forall k, nodes (frames (2852 + k) st) !! 1 = Some n) /\
  PrimFloat.ltb (x n) (centerX st) = true /\
  PrimFloat.ltb (y n) (centerY st) = true /\
  (0 < Rdistance st n)%R.
Proof.
  intros st n.
  assert (Hfix : updatePhysics (frames 2852 st) = frames 2852 st) by (vm_compute; reflexivity).
  split; [|split; [vm_compute; reflexivity|split; [vm_compute; reflexivity|]]].
  - intros k. rewrite (frames_fixed st 2852 Hfix k). vm_compute. reflexivity.
  - unfold Rdistance. apply sqrt_lt_R0.
    real_value (x n). real_value (y n). real_value (centerX st). real_value (centerY st).
    real_numerals. nra.
Qed.

(** A node that starts outside the walls is thrown back and forth by them:
    on [farStart] it is farther from the centre after 4 steps than after 3. *)
Lemma far_start_moves_away :
  let st := farStart in
  let n := nodeAfter 3 0 st in
  let n' := nodeAfter 4 0 st in
  nodes (frames 3 st) !! 0 = Some n /\ nodes (frames 4 st) !! 0 = Some n' /\
  within (radius n + #10) (width st - (radius n + #10)) (centerX st) = true /\
  within (radius n + #10) (height st - (radius n + #10)) (centerY st) = true /\
  (Rdistance st n < Rdistance st n')%R.
Proof.
  intros st n n'.
  split; [vm_compute; reflexivity|]. split; [vm_compute; reflexivity|].
  split; [vm_compute; reflexivity|]. split; [vm_compute; reflexivity|].
  unfold Rdistance. apply sqrt_lt_1_alt.
  real_value (x n). real_value (x n'). real_value (y n). real_value (y n').
  real_value (centerX st). real_value (centerY st).
  real_numerals. split; [nra|lra].
Qed.

(** On a canvas too narrow for the walls to hold the centre, a node at rest
    at the centre is pushed away from it by the first step. *)
Lemma narrow_canvas_moves_away :
  let st := narrowPull in
  let n := nodeAfter 0 0 st in
  let n' := nodeAfter 1 0 st in
  nodes st !! 0 = Some n /\ nodes (frames 1 st) !! 0 = Some n' /\
  x n = centerX st /\ y n = centerY st /\
  (Rdistance st n < Rdistance st n')%R.
Proof.
  intros st n n'.
  split; [vm_compute; reflexivity|]. split; [vm_compute; reflexivity|].
  split; [vm_compute; reflexivity|]. split; [vm_compute; reflexivity|].
  unfold Rdistance. apply sqrt_lt_1_alt.
  real_value (x n). real_value (x n'). real_value (y n). real_value (y n').
  real_value (centerX st). real_value (centerY st).
  real_numerals. split; [nra|lra].
Qed.

(** With a centre attraction of 0.007, on doubles, no node of [briskPull]
    moves away from the centre during the first three thousand steps. *)
Example brisk_pull_settles : settlesFor 3000 briskPull = true.
Proof. vm_compute. reflexivity. Qed.

(** Two nodes at rest at the same point lose their position in the first
    step, although the repulsion strength is zero. *)
Lemma coincident_pull_lost :
  let st := coincidentPull in
  Forall (atRestF st) (nodes st) /\
  PrimFloat.is_nan (x (nodeAfter 1 0 st)) = true /\
  PrimFloat.is_nan (y (nodeAfter 1 0 st)) = true.
Proof.
  intros st. split; [repeat constructor; vm_compute; reflexivity|].
  split; vm_compute; reflexivity.
Qed.

End PullRuns.

(** * Instances *)

Section Instances.
Local Open Scope num_scope.

(** The catalog and connection list of the source resolve completely, on any
    canvas and for any initial placement: eight nodes, nine edges, none
    dangling. *)
Theorem shipped_graph_resolves {T : Type} `{Number T} (st : ecosystem T)
    (place : nat -> T -> T -> T * T) :
  let st' := initializeSkills st skills connectionMap place in
  map (fun n => name (info n)) (nodes st') = map name skills /\
  connections st' =
    [Connection (Some 0) (Some 6); Connection (Some 0) (Some 1);
     Connection (Some 1) (Some 3); Connection (Some 2) (Some 4);
     Connection (Some 2) (Some 7); Connection (Some 5) (Some 4);
     Connection (Some 3) (Some 7); Connection (Some 4) (Some 6);
     Connection (Some 1) (Some 7)] /\
  anchored (nodes st') (connections st') /\
  forall c, c ∈ connections st' -> ~ dangling c.
Proof.
  cbv zeta.
  assert (Hc : connections (initializeSkills st skills connectionMap place) =
    [Connection (Some 0) (Some 6); Connection (Some 0) (Some 1);
     Connection (Some 1) (Some 3); Connection (Some 2) (Some 4);
     Connection (Some 2) (Some 7); Connection (Some 5) (Some 4);
     Connection (Some 3) (Some 7); Connection (Some 4) (Some 6);
     Connection (Some 1) (Some 7)]) by reflexivity.
  split; [reflexivity|]. split; [exact Hc|]. rewrite Hc. split.
  - intros c j Hin Hj. simpl.
    repeat (apply elem_of_cons in Hin as [->|Hin];
            [simpl in Hj; destruct Hj as [[= <-]|[= <-]]; lia|]).
    inversion Hin.
  - intros c Hin [Hd|Hd];
    repeat (apply elem_of_cons in Hin as [->|Hin]; [discriminate|]);
    inversion Hin.
Qed.

Lemma step_skips_dragged_witness :
  nodes (updatePhysics dragScene) !! 1 = nodes dragScene !! 1.
Proof. apply (step_skips_dragged dragScene 1). reflexivity. Defined.

Lemma drag_and_drop_witness :
  let st' := run springScene [MouseDown pressOnNode1; MouseMove moveTo; MouseUp] in
  nodes st' =
    <[1 := setNodePos (nodeAt 1 #500 #300)
             (clientX moveTo - rectLeft moveTo) (clientY moveTo - rectTop moveTo)]>
      (nodes springScene) /\
  draggedNode st' = None /\
  cursor st' = "grab".
Proof.
  apply (drag_and_drop springScene pressOnNode1 moveTo 1 (nodeAt 1 #500 #300)).
  - vm_compute. reflexivity.
  - reflexivity.
Defined.

Lemma press_on_background_witness :
  let st' := run springScene [MouseDown pressNowhere; MouseMove moveTo] in
  nodes st' = nodes springScene /\ draggedNode st' = None /\ hoverTimer st' = true.
Proof.
  apply (press_on_background springScene pressNowhere moveTo).
  vm_compute. reflexivity.
Defined.

Lemma hover_debounced_witness :
  let st' := run springScene
               (map MouseMove [pressNowhere; moveTo] ++ [MouseMove pressOnNode1; HoverTimer]) in
  hoveredNode st' =
    getNodeAtPosition springScene (clientX pressOnNode1 - rectLeft pressOnNode1)
                      (clientY pressOnNode1 - rectTop pressOnNode1) /\
  hoverTimer st' = false /\
  nodes st' = nodes springScene /\
  run st' [HoverTimer] = st'.
Proof.
  apply (hover_debounced springScene [pressNowhere; moveTo] pressOnNode1).
  reflexivity.
Defined.

Lemma run_consistent_witness :
  consistent (run springScene [MouseDown pressOnNode1; Frame; MouseMove moveTo; HoverTimer]).
Proof.
  apply (run_consistent springScene).
  split; [discriminate|]. split; [discriminate|reflexivity].
Defined.

Lemma nan_node_unreachable_witness :
  PrimFloat.is_nan (x (nodeAt 1 #500 #300)) = false /\
  PrimFloat.is_nan (y (nodeAt 1 #500 #300)) = false.
Proof.
  apply (nan_node_unreachable springScene #505 #310 1 (nodeAt 1 #500 #300)).
  - vm_compute. reflexivity.
  - reflexivity.
Defined.

Lemma nan_survives_step_witness :
  exists n',
    nodes (updatePhysics lostScene) !! 0 = Some n' /\
    PrimFloat.is_nan (x n') = true.
Proof.
  destruct (nan_survives_step lostScene 0 (nodeAt 0 PrimFloat.nan #300))
    as (n' & Hn' & Hx & _).
  - reflexivity.
  - discriminate.
  - exists n'. split; [exact Hn'|]. apply Hx. reflexivity.
Defined.

Lemma nan_is_forever_witness :
  exists n',
    nodes (run lostScene [Frame; MouseDown pressOnNode1; Resize #1000 #700 #1; Frame]) !! 0
      = Some n' /\
    lost n' /\
    draggedNode (run lostScene [Frame; MouseDown pressOnNode1; Resize #1000 #700 #1; Frame])
      <> Some 0.
Proof.
  apply (nan_is_forever lostScene 0 (nodeAt 0 PrimFloat.nan #300)).
  - reflexivity.
  - discriminate.
  - left. reflexivity.
Defined.

Lemma lost_node_repels_nothing_witness :
  repel lostScene (nodeAt 1 #500 #300) (nodeAt 0 PrimFloat.nan #300) (#0, #0) = (#0, #0).
Proof.
  apply (lost_node_repels_nothing lostScene). left. reflexivity.
Defined.

Lemma nan_spreads_along_edges_witness :
  exists a', nodes (updatePhysics lostScene) !! 1 = Some a' /\
    PrimFloat.is_nan (x a') = true /\ PrimFloat.is_nan (y a') = true.
Proof.
  apply (nan_spreads_along_edges lostScene 1 0 (nodeAt 1 #500 #300)
           (nodeAt 0 PrimFloat.nan #300) (Connection (Some 0) (Some 1))).
  - reflexivity.
  - reflexivity.
  - discriminate.
  - discriminate.
  - left. reflexivity.
  - left.
  - right. split; reflexivity.
Defined.

Lemma render_throws_witness :
  render hexColor lostScene = None <->
  (exists c, c ∈ connections lostScene /\ unpaintable hexColor (nodes lostScene) c) \/
  (exists i n, nodes lostScene !! i = Some n /\ negativeDisc lostScene i n).
Proof.
  apply (render_throws hexColor lostScene).
  intros c j Hin Hj. apply list_elem_of_singleton in Hin as ->.
  destruct Hj as [[= <-]|[= <-]]; simpl; lia.
Defined.


Lemma loop_steps_once_per_frame_witness :
  let lp := runLoop hexColor (newLoop springScene) (map Tick stamps) in
  eco lp = frames 3 springScene /\ length (scheduled lp) = 1%nat.
Proof.
  apply (loop_steps_once_per_frame hexColor springScene stamps 3).
  - simpl. lia.
  - intros j Hj.
    assert (Hc : j = 1%nat \/ j = 2%nat \/ j = 3%nat) by lia.
    destruct Hc as [->|[->| ->]]; vm_compute; eexists; reflexivity.
  - simpl. lia.
Defined.

Lemma dangling_edge_stops_loop_witness :
  let lp := runLoop hexColor (newLoop danglingScene) (Tick #16 :: map Tick stamps) in
  eco lp = updatePhysics danglingScene /\ scheduled lp = [].
Proof.
  apply (dangling_edge_stops_loop hexColor danglingScene #16 stamps).
  - intros c j Hin Hj. apply list_elem_of_singleton in Hin as ->.
    destruct Hj as [[= <-]|Hj]; [simpl; lia|discriminate].
  - exists (Connection (Some 0) None). split; [left|right; reflexivity].
Defined.

End Instances.

Module CvInstances.
Import CvTool CvToolFacts CvUpdates.

Lemma fullDoc_updates : updateCV fullDoc = Some (default ∅ (updateCV fullDoc)).
Proof. vm_compute. reflexivity. Qed.

Lemma fullDoc_complete :
  forall i o d, (i, o, d) ∈ cvFields ->
    is_Some (fullDoc !! i) /\ is_Some (fullDoc !! o).
Proof.
  intros i o d Hin.
  repeat (apply elem_of_cons in Hin as [[= -> -> ->]|Hin];
          [split; vm_compute; eauto|]).
  inversion Hin.
Qed.

Lemma updateCV_shows_inputs_witness :
  length cvFields = 18%nat /\
  exists doc',
    updateCV fullDoc = Some doc' /\
    forall i o d inEl, (i, o, d) ∈ cvFields -> fullDoc !! i = Some inEl ->
      innerText <$> doc' !! o = Some (shown (value inEl) d).
Proof. apply (updateCV_shows_inputs fullDoc). exact fullDoc_complete. Defined.

Lemma updateCV_frame_witness :
  (forall k, value <$> default ∅ (updateCV fullDoc) !! k = value <$> fullDoc !! k) /\
  (forall k, k ∉ map (fun f => snd (fst f)) cvFields ->
             default ∅ (updateCV fullDoc) !! k = fullDoc !! k).
Proof. apply (updateCV_frame fullDoc). exact fullDoc_updates. Defined.

Lemma updateCV_idempotent_witness :
  updateCV (default ∅ (updateCV fullDoc)) = Some (default ∅ (updateCV fullDoc)).
Proof. apply (updateCV_idempotent fullDoc). exact fullDoc_updates. Defined.

End CvInstances.
